(** * guess-song-game: the room and round engine of [server.js]

    A shallow embedding of the socket handlers of [src/server.js]
    ([joinRoom], [startGame], [answer], [disconnect]), of [startNextRound],
    [getOrCreateRoom], [generateOptions], [shuffle], [scanAudioDir] and
    [initSongDatabase], followed by the properties of the engine.

    Conventions of the embedding.
    - A socket id and a room id are strings.  [socket.data.roomId] is
      [undefined] until the first [joinRoom]; the per-connection store
      [sockets] has no entry for such a connection, and [rooms.get(undefined)]
      finds nothing since every key of [rooms] is a string.
    - [room.players] is a JavaScript object used as a map and enumerated with
      [Object.keys]: it is an association list in insertion order.  Socket
      ids are taken not to be canonical array indices (which JavaScript
      enumerates first) nor names of [Object.prototype] members.
    - [Math.random] is an injected sequence of naturals [rng]; the draw
      [Math.floor(Math.random() * (i + 1))] is the next natural modulo
      [i + 1], so every index in [0..i] can come out.
    - [io.to(x).emit(e, payload)] appends [Emit x payload] to the output of
      the handler; the payload holds the value of [room.players] at the
      time of the call.  Who receives it ([socket.join] and the delivery
      are socket.io's) is not part of the state.
    - [setTimeout(..., 3000)] appends the room id to the queue [timers]; all
      delays are equal, so the timers fire in the order they were set, at
      any later point: the input [TimerFire] runs the oldest one. *)

From stdpp Require Import gmap strings list fin_maps.
From Stdlib Require Import ZArith Lia.

Set Default Proof Using "Type".

(** ** JavaScript objects used as maps, in insertion order *)

Section js_object.
Context {V : Type}.

(** [o[k]] *)
Fixpoint obj_get (k : string) (o : list (string * V)) : option V :=
  match o with
  | [] => None
  | (k', v) :: o' => if decide (k' = k) then Some v else obj_get k o'
  end.

(** [o[k] = v]: an existing key keeps its place, a new one goes last. *)
Fixpoint obj_set (k : string) (v : V) (o : list (string * V))
  : list (string * V) :=
  match o with
  | [] => [(k, v)]
  | (k', v') :: o' =>
      if decide (k' = k) then (k, v) :: o' else (k', v') :: obj_set k v o'
  end.

(** [delete o[k]] *)
Definition obj_delete (k : string) (o : list (string * V))
  : list (string * V) :=
  filter (λ kv, kv.1 ≠ k) o.

(** [Object.keys(o)] *)
Definition obj_keys (o : list (string * V)) : list string := o.*1.
End js_object.

(** ** Data *)

Record song := Song { title : string; audioUrl : string }.

Record player := Player { name : string; score : nat }.

(** [room.currentQuestion] *)
Record question := Question {
  q_title : string;
  q_audioUrl : string;
  correctIndex : Z;
  winnerSocketId : option string
}.

Record room := Room {
  id : string;
  hostId : option string;
  players : list (string * player);
  gameQuestions : list song;
  gameIndex : nat;
  currentQuestion : option question;
  roundActive : bool
}.

(** Payloads of the events the server emits. *)
Inductive event :=
  | roomState (roomId : string) (host : option string)
      (ps : list (string * player))
  | gameStart (total : nat)
  | questionEv (url : string) (options : list string) (index total : nat)
  | answerResult (isCorrect : bool)
  | roundResult (correct : Z) (winner : string * string * nat)
      (ps : list (string * player))
  | gameEnd (ps : list (string * player)).

(** [io.to(target).emit(...)] *)
Inductive emit := Emit (target : string) (e : event).

Record state := State {
  rooms : gmap string room;
  sockets : gmap string string;
  timers : list string;
  rng : list nat
}.

(** The state at start-up, with the random draws still to come. *)
Definition boot (r : list nat) : state :=
  {| rooms := ∅; sockets := ∅; timers := []; rng := r |}.

(** Truthiness of a value that is [null] or a string. *)
Definition truthy (o : option string) : bool :=
  match o with
  | None => false
  | Some s => negb (String.eqb s EmptyString)
  end.

(** ** [shuffle] *)

Definition draw (r : list nat) : nat * list nat :=
  match r with
  | [] => (0, [])
  | x :: r' => (x, r')
  end.

(** [[arr[i], arr[j]] = [arr[j], arr[i]]]; both indices are in range at
    every call of [shuffle]. *)
Definition swap {A} (i j : nat) (arr : list A) : list A :=
  match arr !! i, arr !! j with
  | Some a, Some b => <[j:=a]> (<[i:=b]> arr)
  | _, _ => arr
  end.

(** The loop of [shuffle], entered with [i]; it stops at [i = 0]. *)
Fixpoint shuffle_from {A} (i : nat) (arr : list A) (r : list nat)
  : list A * list nat :=
  match i with
  | 0 => (arr, r)
  | S i' =>
      let '(x, r') := draw r in
      let j := x mod (i + 1) in
      shuffle_from i' (swap i j arr) r'
  end.

Definition shuffle {A} (arr : list A) (r : list nat) : list A * list nat :=
  shuffle_from (length arr - 1) arr r.

(** [arr.indexOf(x)] *)
Fixpoint indexOf_from (i : Z) (arr : list string) (x : string) : Z :=
  match arr with
  | [] => (-1)%Z
  | y :: arr' => if decide (y = x) then i else indexOf_from (i + 1)%Z arr' x
  end.

Definition indexOf (arr : list string) (x : string) : Z :=
  indexOf_from 0%Z arr x.

Section server.
(** The song database, fixed once [initSongDatabase] has run. *)
Variable songs : list song.

(** ** [generateOptions] *)
Definition generateOptions (correctTitle : string) (r : list nat)
  : list string * Z * list nat :=
  let titles := filter (λ t, t ≠ correctTitle) (title <$> songs) in
  let '(titles, r) := shuffle titles r in
  let wrong := take 3 titles in
  let options := correctTitle :: wrong in
  let '(options, r) := shuffle options r in
  (options, indexOf options correctTitle, r).

(** ** [getOrCreateRoom] *)
Definition newRoom (roomId : string) : room :=
  {| id := roomId; hostId := None; players := []; gameQuestions := [];
     gameIndex := 0; currentQuestion := None; roundActive := false |}.

Definition getOrCreateRoom (roomId : string) (m : gmap string room)
  : room * gmap string room :=
  match m !! roomId with
  | Some rm => (rm, m)
  | None => (newRoom roomId, <[roomId := newRoom roomId]> m)
  end.

(** ** [startNextRound] *)
Definition startNextRound (roomId : string) (st : state)
  : state * list emit :=
  match rooms st !! roomId with
  | None => (st, [])
  | Some rm =>
      if decide (length (gameQuestions rm) ≤ gameIndex rm) then
        (st, [Emit roomId (gameEnd (players rm))])
      else
        match gameQuestions rm !! gameIndex rm with
        | None => (st, []) (* not taken: the index is in range here *)
        | Some sg =>
            let gi := S (gameIndex rm) in
            let '(options, ci, r) := generateOptions (title sg) (rng st) in
            let q := {| q_title := title sg; q_audioUrl := audioUrl sg;
                        correctIndex := ci; winnerSocketId := None |} in
            let rm' := {| id := id rm; hostId := hostId rm;
                          players := players rm;
                          gameQuestions := gameQuestions rm;
                          gameIndex := gi;
                          currentQuestion := Some q;
                          roundActive := true |} in
            ({| rooms := <[roomId := rm']> (rooms st);
                sockets := sockets st; timers := timers st; rng := r |},
             [Emit roomId
                (questionEv (audioUrl sg) options gi
                   (length (gameQuestions rm)))])
        end
  end.

(** ** [socket.on('joinRoom')] *)
Definition on_joinRoom (sid roomId nm : string) (st : state)
  : state * list emit :=
  let '(rm, m) := getOrCreateRoom roomId (rooms st) in
  let host := if truthy (hostId rm) then hostId rm else Some sid in
  let ps := obj_set sid {| name := nm; score := 0 |} (players rm) in
  let rm' := {| id := id rm; hostId := host; players := ps;
                gameQuestions := gameQuestions rm;
                gameIndex := gameIndex rm;
                currentQuestion := currentQuestion rm;
                roundActive := roundActive rm |} in
  ({| rooms := <[roomId := rm']> m;
      sockets := <[sid := roomId]> (sockets st);
      timers := timers st; rng := rng st |},
   [Emit roomId (roomState roomId host ps)]).

(** ** [socket.on('startGame')] *)
Definition on_startGame (sid : string) (st : state) : state * list emit :=
  match sockets st !! sid with
  | None => (st, [])
  | Some roomId =>
      match rooms st !! roomId with
      | None => (st, [])
      | Some rm =>
          if decide (hostId rm = Some sid) then
            let '(shuffled, r) := shuffle songs (rng st) in
            let gq := take 10 shuffled in
            let rm' := {| id := id rm; hostId := hostId rm;
                          players := players rm;
                          gameQuestions := gq; gameIndex := 0;
                          currentQuestion := currentQuestion rm;
                          roundActive := roundActive rm |} in
            let st1 := {| rooms := <[roomId := rm']> (rooms st);
                          sockets := sockets st; timers := timers st;
                          rng := r |} in
            let '(st2, out) := startNextRound roomId st1 in
            (st2, Emit roomId (gameStart (length gq)) :: out)
          else (st, [])
      end
  end.

(** ** [socket.on('answer')] *)
Definition on_answer (sid : string) (optionIndex : Z) (st : state)
  : state * list emit :=
  match sockets st !! sid with
  | None => (st, [])
  | Some roomId =>
      match rooms st !! roomId with
      | None => (st, [])
      | Some rm =>
          if negb (roundActive rm) then (st, [])
          else
            match currentQuestion rm with
            | None => (st, [])
            | Some q =>
                match obj_get sid (players rm) with
                | None => (st, [])
                | Some p =>
                    let isCorrect := (optionIndex =? correctIndex q)%Z in
                    let echo := Emit sid (answerResult isCorrect) in
                    if truthy (winnerSocketId q) then (st, [echo])
                    else if isCorrect then
                      let q' := {| q_title := q_title q;
                                   q_audioUrl := q_audioUrl q;
                                   correctIndex := correctIndex q;
                                   winnerSocketId := Some sid |} in
                      let p' := {| name := name p;
                                   score := score p + 1 |} in
                      let ps := obj_set sid p' (players rm) in
                      let rm' := {| id := id rm; hostId := hostId rm;
                                    players := ps;
                                    gameQuestions := gameQuestions rm;
                                    gameIndex := gameIndex rm;
                                    currentQuestion := Some q';
                                    roundActive := false |} in
                      ({| rooms := <[roomId := rm']> (rooms st);
                          sockets := sockets st;
                          timers := timers st ++ [roomId];
                          rng := rng st |},
                       [echo;
                        Emit roomId
                          (roundResult (correctIndex q)
                             (sid, name p', score p') ps)])
                    else (st, [echo])
                end
            end
      end
  end.

(** ** [socket.on('disconnect')]

    The connection ends with this event: its [socket.data] is dropped
    from [sockets] whatever the handler does. *)
Definition on_disconnect (sid : string) (st : state) : state * list emit :=
  let gone := delete sid (sockets st) in
  match sockets st !! sid with
  | None => (st, [])
  | Some roomId =>
      match rooms st !! roomId with
      | None =>
          ({| rooms := rooms st; sockets := gone; timers := timers st;
              rng := rng st |}, [])
      | Some rm =>
          let ps := obj_delete sid (players rm) in
          let host :=
            if decide (hostId rm = Some sid) then
              match obj_keys ps with
              | [] => None
              | k :: _ => Some k
              end
            else hostId rm in
          let rm' := {| id := id rm; hostId := host; players := ps;
                        gameQuestions := gameQuestions rm;
                        gameIndex := gameIndex rm;
                        currentQuestion := currentQuestion rm;
                        roundActive := roundActive rm |} in
          if decide (length (obj_keys ps) = 0) then
            ({| rooms := delete roomId (rooms st); sockets := gone;
                timers := timers st; rng := rng st |}, [])
          else
            ({| rooms := <[roomId := rm']> (rooms st); sockets := gone;
                timers := timers st; rng := rng st |},
             [Emit roomId (roomState roomId host ps)])
      end
  end.

(** ** The timer callback [() => startNextRound(roomId)] *)
Definition on_timer (st : state) : state * list emit :=
  match timers st with
  | [] => (st, [])
  | roomId :: ts =>
      startNextRound roomId
        {| rooms := rooms st; sockets := sockets st; timers := ts;
           rng := rng st |}
  end.

(** ** The event loop *)
Inductive input :=
  | JoinRoom (sid roomId nm : string)
  | StartGame (sid : string)
  | Answer (sid : string) (optionIndex : Z)
  | Disconnect (sid : string)
  | TimerFire.

Definition step (i : input) (st : state) : state * list emit :=
  match i with
  | JoinRoom sid roomId nm => on_joinRoom sid roomId nm st
  | StartGame sid => on_startGame sid st
  | Answer sid k => on_answer sid k st
  | Disconnect sid => on_disconnect sid st
  | TimerFire => on_timer st
  end.

(** Runs the inputs in order; the output is everything emitted. *)
Fixpoint run (ins : list input) (st : state) : state * list emit :=
  match ins with
  | [] => (st, [])
  | i :: ins' =>
      let '(st1, out1) := step i st in
      let '(st2, out2) := run ins' st1 in
      (st2, out1 ++ out2)
  end.
End server.

(** ** Observers of the emitted trace *)

(** The number of [question] events sent to [t] since the last [gameStart]
    sent to [t]: the rounds started so far in the current game of [t]. *)
Definition tally_round (t : string) (n : nat) (e : emit) : nat :=
  match e with
  | Emit t' (gameStart _) => if decide (t' = t) then 0 else n
  | Emit t' (questionEv _ _ _ _) => if decide (t' = t) then S n else n
  | _ => n
  end.

Definition rounds_started (t : string) (tr : list emit) : nat :=
  foldl (tally_round t) 0 tr.

(** The [total] of the last [gameStart] sent to [t]. *)
Definition tally_total (t : string) (o : option nat) (e : emit)
  : option nat :=
  match e with
  | Emit t' (gameStart n) => if decide (t' = t) then Some n else o
  | _ => o
  end.

Definition game_total (t : string) (tr : list emit) : option nat :=
  foldl (tally_total t) None tr.

(** The number of [roundResult] events sent to [t] since the last
    [question] sent to [t]: the winners announced for the current round. *)
Definition tally_win (t : string) (n : nat) (e : emit) : nat :=
  match e with
  | Emit t' (questionEv _ _ _ _) => if decide (t' = t) then 0 else n
  | Emit t' (roundResult _ _ _) => if decide (t' = t) then S n else n
  | _ => n
  end.

Definition round_wins (t : string) (tr : list emit) : nat :=
  foldl (tally_win t) 0 tr.

(** The number of [gameEnd] events sent to [t] since the last [gameStart]
    sent to [t]. *)
Definition tally_end (t : string) (n : nat) (e : emit) : nat :=
  match e with
  | Emit t' (gameStart _) => if decide (t' = t) then 0 else n
  | Emit t' (gameEnd _) => if decide (t' = t) then S n else n
  | _ => n
  end.

Definition game_ends (t : string) (tr : list emit) : nat :=
  foldl (tally_end t) 0 tr.

Definition is_gameStart_to (t : string) (e : emit) : Prop :=
  ∃ n, e = Emit t (gameStart n).

Definition is_question_to (t : string) (e : emit) : Prop :=
  ∃ u o i n, e = Emit t (questionEv u o i n).

(** The invariant of a room between two handlers. *)
Definition round_inv (rm : room) : Prop :=
  roundActive rm = true →
  ∃ q, currentQuestion rm = Some q ∧ winnerSocketId q = None.

(** Events that none of the observers for [t] counts. *)
Definition quiet (t : string) (e : emit) : Prop :=
  match e with
  | Emit t' (gameStart _) | Emit t' (questionEv _ _ _ _)
  | Emit t' (roundResult _ _ _) => t' ≠ t
  | _ => True
  end.

(** What is asked of an event emitted after the history [hist]: a
    [question] carries the number of the round it starts and the total
    announced by the game's [gameStart]; a [roundResult] is the first one
    of its round. *)
Definition good_event (hist : list emit) (e : emit) : Prop :=
  match e with
  | Emit t (questionEv _ _ i n) =>
      i = S (rounds_started t hist) ∧ game_total t hist = Some n
  | Emit t (roundResult _ _ _) => round_wins t hist = 0
  | _ => True
  end.

Fixpoint good_trace (hist out : list emit) : Prop :=
  match out with
  | [] => True
  | e :: out' => good_event hist e ∧ good_trace (hist ++ [e]) out'
  end.

(** The invariant of room [t] together with the trace emitted so far. *)
Definition room_inv (t : string) (rm : room) (tr : list emit) : Prop :=
  round_inv rm ∧
  (roundActive rm = true → round_wins t tr = 0) ∧
  (gameIndex rm < length (gameQuestions rm) →
   gameIndex rm = rounds_started t tr ∧
   game_total t tr = Some (length (gameQuestions rm))).

Definition inv (st : state) (tr : list emit) : Prop :=
  ∀ t rm, rooms st !! t = Some rm → room_inv t rm tr.

(** The round and game fields of a room are left as they are. *)
Definition same_round (rm rm' : room) : Prop :=
  gameQuestions rm' = gameQuestions rm ∧ gameIndex rm' = gameIndex rm ∧
  currentQuestion rm' = currentQuestion rm ∧
  roundActive rm' = roundActive rm.

(** A round has just been started. *)
Definition fresh_round (rm' : room) : Prop :=
  roundActive rm' = true ∧
  ∃ q, currentQuestion rm' = Some q ∧ winnerSocketId q = None.

(** What one handler does to the registry entry of the one room [a] it
    works on, with what it emits: a summary of the branches of the five
    handlers of [step]. *)
Inductive room_step (a : string)
  : option room → option room → list emit → Prop :=
  | rs_none o : room_step a o o []
  | rs_echo rm sid b :
      roundActive rm = true →
      room_step a (Some rm) (Some rm) [Emit sid (answerResult b)]
  | rs_end rm :
      length (gameQuestions rm) ≤ gameIndex rm →
      room_step a (Some rm) (Some rm) [Emit a (gameEnd (players rm))]
  | rs_join o rm' :
      same_round (default (newRoom a) o) rm' →
      room_step a o (Some rm')
        [Emit a (roomState a (hostId rm') (players rm'))]
  | rs_leave rm rm' :
      same_round rm rm' →
      room_step a (Some rm) (Some rm')
        [Emit a (roomState a (hostId rm') (players rm'))]
  | rs_close rm : room_step a (Some rm) None []
  | rs_win rm rm' q sid w :
      roundActive rm = true →
      currentQuestion rm = Some q →
      truthy (winnerSocketId q) = false →
      currentQuestion rm' =
        Some {| q_title := q_title q; q_audioUrl := q_audioUrl q;
                correctIndex := correctIndex q;
                winnerSocketId := Some sid |} →
      roundActive rm' = false →
      gameQuestions rm' = gameQuestions rm →
      gameIndex rm' = gameIndex rm →
      room_step a (Some rm) (Some rm')
        [Emit sid (answerResult true);
         Emit a (roundResult (correctIndex q) (sid, w.1, w.2) (players rm'))]
  | rs_round rm rm' u o :
      gameIndex rm < length (gameQuestions rm) →
      gameIndex rm' = S (gameIndex rm) →
      gameQuestions rm' = gameQuestions rm →
      fresh_round rm' →
      room_step a (Some rm) (Some rm')
        [Emit a (questionEv u o (gameIndex rm')
           (length (gameQuestions rm')))]
  | rs_start_round rm rm' u o :
      gameIndex rm' = 1 →
      fresh_round rm' →
      room_step a (Some rm) (Some rm')
        [Emit a (gameStart (length (gameQuestions rm')));
         Emit a (questionEv u o (gameIndex rm')
           (length (gameQuestions rm')))]
  | rs_start_end rm rm' :
      gameIndex rm' = 0 →
      length (gameQuestions rm') ≤ 0 →
      currentQuestion rm' = currentQuestion rm →
      roundActive rm' = roundActive rm →
      room_step a (Some rm) (Some rm')
        [Emit a (gameStart (length (gameQuestions rm')));
         Emit a (gameEnd (players rm'))].

(** ** [scanAudioDir] and [initSongDatabase]

    [fs.readdirSync(dir, { withFileTypes: true })] gives the entries of a
    directory; an entry for which [isDirectory()] holds is read in its turn
    by the recursive call, so the file system under [public/audio] is a
    tree of entries.  [path.extname], [path.basename] and
    [String.prototype.toLowerCase] belong to the platform and are taken as
    they come. *)

Definition AUDIO_EXT : list string :=
  [".mp3"; ".flac"; ".wav"; ".ogg"; ".m4a"].

#[local] Set Warnings "-register-all".
Inductive dirent :=
  | File (nm : string)
  | Dir (nm : string) (entries : list dirent).

Section loader.
Variable extname : string → string.
Variable toLowerCase : string → string.
Variable basename : string → string → string.

(** The body of the loop of [scanAudioDir] for one entry; [acc] is the
    global [songs], to which [songs.push] appends. *)
Fixpoint scanEntry (baseUrl : string) (entry : dirent) (acc : list song)
  : list song :=
  match entry with
  | Dir nm entries =>
      foldl (λ acc e, scanEntry (baseUrl +:+ "/" +:+ nm) e acc) acc entries
  | File nm =>
      let ext := toLowerCase (extname nm) in
      if decide (ext ∈ AUDIO_EXT) then
        acc ++ [{| title := basename nm ext;
                   audioUrl := baseUrl +:+ "/" +:+ nm |}]
      else acc
  end.

Definition scanAudioDir (entries : list dirent) (baseUrl : string)
    (acc : list song) : list song :=
  foldl (λ acc e, scanEntry baseUrl e acc) acc entries.

(** [initSongDatabase], on the entries of [public/audio]: [songs] is
    emptied, then filled by the scan with the default [baseUrl]. *)
Definition initSongDatabase (root : list dirent) : list song :=
  scanAudioDir root "/audio" [].

(** The files of a tree that [scanAudioDir] keeps, each with the folders
    above it, outermost first. *)
Fixpoint audio_files (e : dirent) : list (list string * string) :=
  match e with
  | Dir nm entries =>
      (λ pf, (nm :: pf.1, pf.2)) <$> (entries ≫= audio_files)
  | File nm =>
      if decide (toLowerCase (extname nm) ∈ AUDIO_EXT) then [([], nm)]
      else []
  end.

(** [baseUrl/d1/.../dk] *)
Definition url_under (baseUrl : string) (dirs : list string) : string :=
  foldl (λ u d, u +:+ "/" +:+ d) baseUrl dirs.

Definition song_of_file (baseUrl : string) (pf : list string * string)
  : song :=
  {| title := basename pf.2 (toLowerCase (extname pf.2));
     audioUrl := url_under baseUrl pf.1 +:+ "/" +:+ pf.2 |}.
End loader.

(** The rooms whose [roundResult] was broadcast, in order: each of them
    set a round-advance timer. *)
Definition won_rooms (tr : list emit) : list string :=
  omap (λ e, match e with
             | Emit t (roundResult _ _ _) => Some t
             | _ => None
             end) tr.

Definition is_gameEnd_to (t : string) (e : emit) : Prop :=
  ∃ ps, e = Emit t (gameEnd ps).

(** The timer that the input [i] takes from the queue: the oldest one,
    when [i] is a firing and a timer is pending. *)
Definition fired_by (i : input) (st : state) : list string :=
  match i with
  | TimerFire =>
      match timers st with
      | a :: _ => [a]
      | [] => []
      end
  | _ => []
  end.

(** The rooms of the timers that fire during a run, in order. *)
Fixpoint fired_timers (songs : list song) (ins : list input) (st : state)
  : list string :=
  match ins with
  | [] => []
  | i :: ins' => fired_by i st ++ fired_timers songs ins' (step songs i st).1
  end.

(** What one handler, working on room [a], does to the queue of timers:
    it leaves it alone, and then either announces a game or sends neither
    [question] nor [gameEnd]; or it sets a timer for [a] with a
    [roundResult]; or it takes the timer of [a] from the head of the queue
    and announces no game. *)
Definition timers_step (a : string) (st st' : state) (out : list emit)
  : Prop :=
  (timers st' = timers st ∧
   ((∃ n out', out = Emit a (gameStart n) :: out') ∨
    (won_rooms out = [] ∧
     ∀ e, e ∈ out → (¬ is_question_to a e) ∧ (¬ is_gameEnd_to a e)))) ∨
  (timers st' = timers st ++ [a] ∧ won_rooms out = [a]) ∨
  (timers st = a :: timers st' ∧ won_rooms out = [] ∧
   ∀ e, e ∈ out → ¬ is_gameStart_to a e).

(** The number of timers pending for room [t] in the queue. *)
Definition pending (t : string) (queue : list string) : nat :=
  length (filter (λ x, x = t) queue).

(** The invariant of the game in progress in room [t], with the number
    [n] of [gameEnd] events it has seen: at most one timer is pending for
    the room, none while a round is open, and none once the game has
    ended, when no round is open either. *)
Definition game_end_inv (t : string) (st : state) (n : nat) : Prop :=
  pending t (timers st) ≤ 1 ∧
  (∀ rm, rooms st !! t = Some rm → roundActive rm = true →
     pending t (timers st) = 0) ∧
  (1 ≤ n →
     pending t (timers st) = 0 ∧
     (∀ rm, rooms st !! t = Some rm → roundActive rm = false)) ∧
  n ≤ 1.

(** The game of room [t] is over and its last round-advance has run:
    the room holds a question list of which every question was drawn, at
    least one, no round is open and no timer is pending for the room.  The
    game has then seen its [gameEnd]. *)
Definition game_done (t : string) (st : state) : Prop :=
  ∃ rm, rooms st !! t = Some rm ∧ 1 ≤ gameIndex rm ∧
        length (gameQuestions rm) ≤ gameIndex rm ∧
        roundActive rm = false ∧ pending t (timers st) = 0.

Definition game_done_inv (t : string) (st : state) (n : nat) : Prop :=
  game_done t st → n = 1.

(** ** Well-formed states *)

Section well_formed.
Variable songs : list song.

(** The current question is the one of the song before the cursor. *)
Definition question_ok (rm : room) : Prop :=
  ∀ q, currentQuestion rm = Some q →
    ∃ sg, 0 < gameIndex rm ∧
      gameQuestions rm !! (gameIndex rm - 1) = Some sg ∧
      q_title q = title sg ∧ q_audioUrl q = audioUrl sg ∧
      (0 ≤ correctIndex q < 4)%Z.

Definition wf_room (t : string) (rm : room) : Prop :=
  id rm = t ∧
  NoDup (obj_keys (players rm)) ∧
  (∃ h, hostId rm = Some h ∧ h ∈ obj_keys (players rm)) ∧
  gameIndex rm ≤ length (gameQuestions rm) ∧
  gameQuestions rm ⊆+ songs ∧
  length (gameQuestions rm) ≤ 10 ∧
  question_ok rm.

Definition wf (st : state) : Prop :=
  (∀ t rm, rooms st !! t = Some rm → wf_room t rm) ∧
  (∀ sid r, sockets st !! sid = Some r →
     ∃ rm, rooms st !! r = Some rm ∧ sid ∈ obj_keys (players rm)).
End well_formed.

(** ** Objects *)

Section js_object_facts.
Context {V : Type}.
Implicit Types (o : list (string * V)) (k : string) (v : V).

Lemma obj_get_set_eq k v o : obj_get k (obj_set k v o) = Some v.
Proof.
  induction o as [|[k' v'] o IH]; simpl.
  - by rewrite decide_True.
  - destruct (decide (k' = k)) as [->|Hne]; simpl.
    + by rewrite decide_True.
    + by rewrite decide_False.
Qed.

Lemma obj_get_set_ne k k' v o :
  k ≠ k' → obj_get k' (obj_set k v o) = obj_get k' o.
Proof.
  intros Hne. induction o as [|[k1 v1] o IH]; simpl.
  - by rewrite decide_False.
  - destruct (decide (k1 = k)) as [->|Hk]; simpl.
    + by rewrite !decide_False.
    + by rewrite IH.
Qed.

Lemma obj_get_delete_eq k o : obj_get k (obj_delete k o) = None.
Proof.
  unfold obj_delete. induction o as [|[k' v'] o IH]; [done|].
  rewrite filter_cons. simpl. destruct (decide (k' ≠ k)); simpl; [|done].
  by rewrite decide_False.
Qed.

Lemma obj_get_delete_ne k k' o :
  k ≠ k' → obj_get k' (obj_delete k o) = obj_get k' o.
Proof.
  intros Hne. unfold obj_delete. induction o as [|[k1 v1] o IH]; [done|].
  rewrite filter_cons. simpl. destruct (decide (k1 ≠ k)) as [Hk|Hk]; simpl.
  - by rewrite IH.
  - apply dec_stable in Hk as ->. by rewrite decide_False.
Qed.

Lemma obj_get_keys k o : is_Some (obj_get k o) ↔ k ∈ obj_keys o.
Proof.
  unfold obj_keys. induction o as [|[k' v'] o IH]; simpl.
  - split; [by intros [? ?]|]. by intros ?%elem_of_nil.
  - rewrite elem_of_cons. destruct (decide (k' = k)) as [->|Hne].
    + split; eauto.
    + rewrite IH. split; [by right|]. by intros [?|?].
Qed.
End js_object_facts.

(** ** [shuffle] permutes *)

Lemma swap_perm {A} i j (arr : list A) : swap i j arr ≡ₚ arr.
Proof.
  unfold swap. destruct (arr !! i) as [a|] eqn:Hi; [|done].
  destruct (arr !! j) as [b|] eqn:Hj; [|done].
  by apply Permutation_insert_swap.
Qed.

Lemma shuffle_from_perm {A} i (arr : list A) r :
  (shuffle_from i arr r).1 ≡ₚ arr.
Proof.
  revert arr r. induction i as [|i IH]; intros arr r; [done|].
  cbn [shuffle_from]. destruct (draw r) as [x r'].
  rewrite IH. apply swap_perm.
Qed.

Lemma shuffle_perm {A} (arr : list A) r : (shuffle arr r).1 ≡ₚ arr.
Proof. apply shuffle_from_perm. Qed.

Lemma indexOf_from_found i arr x :
  x ∈ arr →
  (i ≤ indexOf_from i arr x)%Z ∧
  arr !! Z.to_nat (indexOf_from i arr x - i) = Some x.
Proof.
  revert i. induction arr as [|y arr IH]; intros i Hx.
  - by apply elem_of_nil in Hx.
  - simpl. destruct (decide (y = x)) as [->|Hne].
    + by rewrite Z.sub_diag.
    + apply elem_of_cons in Hx as [->|Hx]; [done|].
      destruct (IH (i + 1)%Z Hx) as [Hle Hat]. split; [lia|].
      replace (indexOf_from (i + 1) arr x - i)%Z
        with (Z.succ (indexOf_from (i + 1) arr x - (i + 1)))%Z by lia.
      rewrite Z2Nat.inj_succ by lia. done.
Qed.

Lemma indexOf_found arr x :
  x ∈ arr →
  (0 ≤ indexOf arr x)%Z ∧ arr !! Z.to_nat (indexOf arr x) = Some x.
Proof.
  intros Hx. destruct (indexOf_from_found 0 arr x Hx) as [? Hat].
  unfold indexOf. by rewrite Z.sub_0_r in Hat.
Qed.

Lemma filter_none {A} (P : A → Prop) `{∀ x, Decision (P x)} (l : list A) :
  (∀ x, x ∈ l → ¬ P x) → filter P l = [].
Proof.
  induction l as [|x l IH]; intros Hl; [done|].
  rewrite filter_cons_False by (apply Hl; left).
  apply IH. intros y Hy. apply Hl. by right.
Qed.

Lemma filter_all {A} (P : A → Prop) `{∀ x, Decision (P x)} (l : list A) :
  (∀ x, x ∈ l → P x) → filter P l = l.
Proof.
  induction l as [|x l IH]; intros Hl; [done|].
  rewrite filter_cons_True by (apply Hl; left).
  f_equal. apply IH. intros y Hy. apply Hl. by right.
Qed.

Lemma filter_ne_length (c : string) (l : list string) :
  NoDup l → length l ≤ S (length (filter (λ t, t ≠ c) l)).
Proof.
  induction 1 as [|x l Hx Hl IH]; simpl; [lia|].
  destruct (decide (x = c)) as [->|Hne].
  - rewrite filter_cons_False by (intros ?; done).
    rewrite filter_all; [lia|]. intros y Hy ->. done.
  - rewrite filter_cons_True by done. simpl. lia.
Qed.

Section properties.
Variable songs : list song.

(** C3 (amended).  For every correct title, bank and random draws,
    [generateOptions] returns one correct title and the first three of
    the shuffled wrong titles: at most 4 options, the correct title
    exactly once, [correctIndex] at its position, every other option a
    title of the bank.  When the titles of the bank are pairwise distinct
    the options are pairwise distinct, there are exactly 4 of them as soon
    as the bank has 4 songs, and with fewer than 3 wrong candidates the
    options are the correct title and all the wrong candidates, fewer
    than 4 in all. *)
Theorem generateOptions_shape (correctTitle : string) (r : list nat) :
  let options := (generateOptions songs correctTitle r).1.1 in
  let ci := (generateOptions songs correctTitle r).1.2 in
  let wrong := filter (λ t, t ≠ correctTitle) (title <$> songs) in
  length options = 1 + min 3 (length wrong) ∧
  length options ≤ 4 ∧
  length (filter (λ t, t = correctTitle) options) = 1 ∧
  (0 ≤ ci)%Z ∧ options !! Z.to_nat ci = Some correctTitle ∧
  (∀ t, t ∈ options → t = correctTitle ∨ t ∈ wrong) ∧
  (NoDup (title <$> songs) →
     NoDup options ∧
     (4 ≤ length songs → length options = 4) ∧
     (length wrong < 3 →
        length options < 4 ∧ options ≡ₚ correctTitle :: wrong)).
Proof.
  intros options ci wrong. subst options ci. unfold generateOptions.
  fold wrong.
  pose proof (shuffle_perm wrong r) as Hp1.
  destruct (shuffle wrong r) as [titles r1]. simpl in Hp1.
  pose proof (shuffle_perm (correctTitle :: take 3 titles) r1) as Hp2.
  destruct (shuffle (correctTitle :: take 3 titles) r1) as [options r2].
  simpl in Hp2. simpl.
  assert (Hlen : length options = 1 + min 3 (length wrong)).
  { rewrite Hp2. simpl. by rewrite length_take, Hp1. }
  assert (Hwrong : ∀ t, t ∈ take 3 titles → t ∈ wrong ∧ t ≠ correctTitle).
  { intros t Ht%(subseteq_take 3 titles). rewrite Hp1 in Ht.
    split; [done|]. unfold wrong in Ht.
    by apply list_elem_of_filter in Ht as [? _]. }
  assert (Hin : correctTitle ∈ options) by (rewrite Hp2; left).
  destruct (indexOf_found options correctTitle Hin) as [Hge Hat].
  split_and!; try done.
  - lia.
  - rewrite Hp2, filter_cons_True by done. simpl. f_equal.
    rewrite filter_none; [done|]. intros t Ht. by apply Hwrong.
  - intros t Ht. rewrite Hp2 in Ht.
    apply elem_of_cons in Ht as [->|Ht]; [by left|right].
    by apply Hwrong.
  - intros Hnd.
    assert (Hndw : NoDup wrong) by by apply NoDup_filter.
    split_and!.
    + rewrite Hp2. apply NoDup_cons. split.
      * intros Hc. by apply Hwrong in Hc as [_ ?].
      * apply (sublist_NoDup _ titles); [|apply sublist_take].
        by rewrite Hp1.
    + intros H4. pose proof (filter_ne_length correctTitle _ Hnd) as Hw.
      rewrite length_fmap in Hw. fold wrong in Hw. lia.
    + intros H3. split; [lia|]. rewrite Hp2.
      rewrite take_ge by (rewrite Hp1; lia). by rewrite Hp1.
Qed.

(** ** One handler at a time *)

Lemma on_joinRoom_lookup (st : state) (sid roomId nm : string) :
  ∃ rm', rooms (on_joinRoom sid roomId nm st).1 !! roomId = Some rm' ∧
    obj_get sid (players rm') = Some {| name := nm; score := 0 |}.
Proof.
  unfold on_joinRoom. destruct (getOrCreateRoom roomId (rooms st)) as [rm m].
  simpl. eexists. split; [apply lookup_insert_eq|]. apply obj_get_set_eq.
Qed.

Lemma on_joinRoom_frame (st : state) (sid roomId nm t : string) :
  t ≠ roomId → rooms (on_joinRoom sid roomId nm st).1 !! t = rooms st !! t.
Proof.
  intros Ht. unfold on_joinRoom, getOrCreateRoom.
  destruct (rooms st !! roomId); simpl; by rewrite ?lookup_insert_ne.
Qed.

Lemma on_joinRoom_socket (st : state) (sid roomId nm : string) :
  sockets (on_joinRoom sid roomId nm st).1 !! sid = Some roomId.
Proof.
  unfold on_joinRoom. destruct (getOrCreateRoom roomId (rooms st)) as [rm m].
  apply lookup_insert_eq.
Qed.

Lemma on_disconnect_frame (st : state) (sid roomId t : string) :
  sockets st !! sid = Some roomId → t ≠ roomId →
  rooms (on_disconnect sid st).1 !! t = rooms st !! t.
Proof.
  intros Hs Ht. unfold on_disconnect. rewrite Hs.
  destruct (rooms st !! roomId) as [rm|]; [|done].
  destruct (decide (length (obj_keys (obj_delete sid (players rm))) = 0));
    simpl; [by rewrite lookup_delete_ne|by rewrite lookup_insert_ne].
Qed.

Lemma on_disconnect_gone (st : state) (sid roomId : string) (rm' : room) :
  sockets st !! sid = Some roomId →
  rooms (on_disconnect sid st).1 !! roomId = Some rm' →
  obj_get sid (players rm') = None.
Proof.
  intros Hs. unfold on_disconnect. rewrite Hs.
  destruct (rooms st !! roomId) as [rm|] eqn:Hr; simpl; [|congruence].
  destruct (decide (length (obj_keys (obj_delete sid (players rm))) = 0));
    simpl.
  - by rewrite lookup_delete_eq.
  - rewrite lookup_insert_eq. intros [= <-]. apply obj_get_delete_eq.
Qed.

(** C7.  A round-advance timer that fires for a room id which is no
    longer in the registry does nothing: [startNextRound] fetches the room
    by id, finds none, changes no state and emits nothing; the only trace
    of the firing is that the timer has left the queue. *)
Theorem timer_on_absent_room (st : state) (roomId : string) :
  rooms st !! roomId = None →
  startNextRound songs roomId st = (st, []) ∧
  ∀ ts, timers st = roomId :: ts →
    on_timer songs st =
      ({| rooms := rooms st; sockets := sockets st; timers := ts;
          rng := rng st |}, []).
Proof.
  intros Hno. split.
  - unfold startNextRound. by rewrite Hno.
  - intros ts Hts. unfold on_timer, startNextRound. rewrite Hts. simpl.
    by rewrite Hno.
Qed.

(** C8.  A [startGame] whose caller has no room in the registry, or is
    not the host of its room, is ignored: the state (rooms, timers and
    random source included) is unchanged and nothing is emitted. *)
Theorem startGame_ignored (st : state) (sid : string) :
  (∀ roomId rm,
     sockets st !! sid = Some roomId → rooms st !! roomId = Some rm →
     hostId rm ≠ Some sid) →
  on_startGame songs sid st = (st, []).
Proof.
  intros Hno. unfold on_startGame.
  destruct (sockets st !! sid) as [roomId|] eqn:Hs; [|done].
  destruct (rooms st !! roomId) as [rm|] eqn:Hr; [|done].
  by rewrite decide_False by eauto.
Qed.

(** C9.  A join makes the connection host when the room has none (a new
    room has none), keeps a host that is there, inserts or overwrites the
    connection's player entry with [{name, score: 0}] and leaves the other
    entries alone, remembers the room for the connection, and broadcasts
    [roomState {roomId, hostId, players}] to the room; other rooms are not
    touched. *)
Theorem joinRoom_effect (st : state) (sid roomId nm : string) :
  let old := default (newRoom roomId) (rooms st !! roomId) in
  let st' := (on_joinRoom sid roomId nm st).1 in
  let out := (on_joinRoom sid roomId nm st).2 in
  ∃ rm', rooms st' !! roomId = Some rm' ∧
    (hostId old = None → hostId rm' = Some sid) ∧
    (truthy (hostId old) = true → hostId rm' = hostId old) ∧
    obj_get sid (players rm') = Some {| name := nm; score := 0 |} ∧
    (∀ k, k ≠ sid → obj_get k (players rm') = obj_get k (players old)) ∧
    out = [Emit roomId (roomState roomId (hostId rm') (players rm'))] ∧
    (∀ t, t ≠ roomId → rooms st' !! t = rooms st !! t) ∧
    sockets st' !! sid = Some roomId.
Proof.
  intros old st' out. subst old st' out.
  unfold on_joinRoom, getOrCreateRoom.
  destruct (rooms st !! roomId) as [rm|] eqn:Hr; simpl;
    (eexists; split; [apply lookup_insert_eq|]; simpl; split_and!;
     [ intros Hh; by rewrite ?Hh
     | intros Hh; by rewrite ?Hh
     | first [apply obj_get_set_eq | by rewrite decide_True]
     | intros k Hk;
       first [by apply obj_get_set_ne | by rewrite decide_False]
     | done
     | intros t Ht; by rewrite ?lookup_insert_ne
     | apply lookup_insert_eq ]).
Qed.

(** C6.  A disconnect removes the connection's player entry from the
    room it had joined.  When no player is left the room leaves the
    registry and nothing is broadcast.  Otherwise the room stays, a host
    that left is replaced by a remaining player, another host is kept,
    and [roomState {roomId, hostId, players}] is broadcast to the room. *)
Theorem disconnect_effect (st : state) (sid roomId : string) (rm : room) :
  sockets st !! sid = Some roomId →
  rooms st !! roomId = Some rm →
  let ps := obj_delete sid (players rm) in
  let st' := (on_disconnect sid st).1 in
  let out := (on_disconnect sid st).2 in
  obj_get sid ps = None ∧
  (∀ k, k ≠ sid → obj_get k ps = obj_get k (players rm)) ∧
  (ps = [] → rooms st' = delete roomId (rooms st) ∧ out = []) ∧
  (ps ≠ [] →
     ∃ rm', rooms st' !! roomId = Some rm' ∧ players rm' = ps ∧
       (hostId rm = Some sid →
          ∃ k, hostId rm' = Some k ∧ k ≠ sid ∧ is_Some (obj_get k ps)) ∧
       (hostId rm ≠ Some sid → hostId rm' = hostId rm) ∧
       out = [Emit roomId (roomState roomId (hostId rm') ps)]) ∧
  (∀ t, t ≠ roomId → rooms st' !! t = rooms st !! t).
Proof.
  intros Hs Hr ps st' out. subst st' out. unfold on_disconnect.
  rewrite Hs, Hr. fold ps.
  assert (Hgone : obj_get sid ps = None) by apply obj_get_delete_eq.
  split_and!.
  - done.
  - intros k Hk. by apply obj_get_delete_ne.
  - intros Hps. rewrite Hps. simpl. done.
  - intros Hps. destruct ps as [|[k p] ps'] eqn:Hps'; [done|]. simpl.
    eexists. split; [apply lookup_insert_eq|]. simpl. split_and!.
    + done.
    + intros Hh. rewrite decide_True by done. exists k.
      assert (Hk : obj_get k ((k, p) :: ps') = Some p)
        by (simpl; by rewrite decide_True).
      split_and!; [done| |by eexists].
      intros ->. congruence.
    + intros Hh. by rewrite decide_False.
    + done.
  - intros t Ht. destruct (decide (length (obj_keys ps) = 0)); simpl.
    + by rewrite lookup_delete_ne.
    + by rewrite lookup_insert_ne.
Qed.

(** C10.  A connection that joined room [A] and then room [B] is
    remembered in [B] only.  Its disconnect removes its entry from [B] and
    leaves [A] as it was: the entry it left in [A] stays, with [A]'s host
    and registry entry.  The same holds in any state where the connection
    is remembered in a room other than [A]. *)
Theorem stale_entry_kept (st : state) (sid A B nmA nmB : string) :
  A ≠ B →
  let st1 := (on_joinRoom sid A nmA st).1 in
  let st2 := (on_joinRoom sid B nmB st1).1 in
  let st3 := (on_disconnect sid st2).1 in
  sockets st2 !! sid = Some B ∧
  rooms st3 !! A = rooms st1 !! A ∧
  (∃ rmA, rooms st3 !! A = Some rmA ∧
     obj_get sid (players rmA) = Some {| name := nmA; score := 0 |}) ∧
  (∀ rmB, rooms st3 !! B = Some rmB → obj_get sid (players rmB) = None) ∧
  (∀ s, sockets s !! sid = Some B →
     rooms (on_disconnect sid s).1 !! A = rooms s !! A).
Proof.
  intros Hne st1 st2 st3.
  assert (Hs2 : sockets st2 !! sid = Some B) by apply on_joinRoom_socket.
  assert (H31 : rooms st3 !! A = rooms st1 !! A).
  { unfold st3. rewrite (on_disconnect_frame st2 sid B A Hs2 Hne).
    by apply on_joinRoom_frame. }
  split_and!; [done|done| | |].
  - destruct (on_joinRoom_lookup st sid A nmA) as (rmA & HA & HpA).
    exists rmA. by rewrite H31.
  - intros rmB HB. by apply (on_disconnect_gone st2 sid B).
  - intros s Hs. by apply (on_disconnect_frame s sid B).
Qed.

(** ** What a handler does to its room *)

Lemma startNextRound_room (roomId : string) (st : state) :
  (∀ t, t ≠ roomId →
     rooms (startNextRound songs roomId st).1 !! t = rooms st !! t) ∧
  room_step roomId (rooms st !! roomId)
    (rooms (startNextRound songs roomId st).1 !! roomId)
    (startNextRound songs roomId st).2.
Proof.
  unfold startNextRound.
  destruct (rooms st !! roomId) as [rm|] eqn:Hr.
  2:{ simpl. rewrite Hr. split; [done|constructor]. }
  destruct (decide (length (gameQuestions rm) ≤ gameIndex rm)) as [Hle|Hlt].
  { simpl. rewrite Hr. split; [done|by constructor]. }
  destruct (gameQuestions rm !! gameIndex rm) as [sg|] eqn:Hsg.
  2:{ apply lookup_ge_None in Hsg. lia. }
  destruct (generateOptions songs (title sg) (rng st)) as [[options ci] r'].
  simpl. split.
  - intros t Ht. by rewrite lookup_insert_ne.
  - rewrite lookup_insert_eq.
    match goal with
    | |- room_step _ _ (Some ?x) _ => apply (rs_round roomId rm x)
    end; simpl; [lia|done|done|].
    split; [done|]. by eexists.
Qed.

Lemma step_room (i : input) (st : state) :
  ∃ a,
    (∀ t, t ≠ a → rooms (step songs i st).1 !! t = rooms st !! t) ∧
    room_step a (rooms st !! a) (rooms (step songs i st).1 !! a)
      (step songs i st).2.
Proof.
  destruct i as [sid roomId nm|sid|sid k|sid|]; simpl.
  - (* joinRoom *)
    exists roomId. unfold on_joinRoom, getOrCreateRoom.
    destruct (rooms st !! roomId) as [rm|] eqn:Hr; simpl;
      (split; [intros t Ht; by rewrite ?lookup_insert_ne|]);
      rewrite lookup_insert_eq;
      match goal with
      | |- room_step _ ?o (Some ?x) _ => apply (rs_join roomId o x)
      end; by repeat split.
  - (* startGame *)
    unfold on_startGame.
    destruct (sockets st !! sid) as [roomId|] eqn:Hs;
      [|exists sid; split; [done|constructor]].
    exists roomId.
    destruct (rooms st !! roomId) as [rm|] eqn:Hr;
      [|simpl; rewrite Hr; split; [done|constructor]].
    destruct (decide (hostId rm = Some sid)) as [Hh|Hh];
      [|simpl; rewrite Hr; split; [done|constructor]].
    destruct (shuffle songs (rng st)) as [shuffled r].
    unfold startNextRound. simpl. rewrite lookup_insert_eq. simpl.
    destruct (decide (length (take 10 shuffled) ≤ 0)) as [Hle|Hlt]; simpl.
    { split; [intros t Ht; by rewrite lookup_insert_ne|].
      rewrite lookup_insert_eq.
      match goal with
      | |- room_step _ _ (Some ?x) _ => by apply (rs_start_end roomId rm x)
      end. }
    destruct (take 10 shuffled !! 0) as [sg|] eqn:Hsg.
    2:{ apply lookup_ge_None in Hsg. lia. }
    destruct (generateOptions songs (title sg) r) as [[options ci] r'].
    simpl. split; [intros t Ht; by rewrite !lookup_insert_ne|].
    rewrite lookup_insert_eq.
    match goal with
    | |- room_step _ _ (Some ?x) _ => apply (rs_start_round roomId rm x)
    end; simpl; [done|].
    split; [done|]. by eexists.
  - (* answer *)
    unfold on_answer.
    destruct (sockets st !! sid) as [roomId|] eqn:Hs;
      [|exists sid; split; [done|constructor]].
    exists roomId.
    destruct (rooms st !! roomId) as [rm|] eqn:Hr;
      [|simpl; rewrite Hr; split; [done|constructor]].
    destruct (roundActive rm) eqn:Hact; simpl;
      [|rewrite Hr; split; [done|constructor]].
    destruct (currentQuestion rm) as [q|] eqn:Hq;
      [|simpl; rewrite Hr; split; [done|constructor]].
    destruct (obj_get sid (players rm)) as [p|] eqn:Hp;
      [|simpl; rewrite Hr; split; [done|constructor]].
    destruct (truthy (winnerSocketId q)) eqn:Hw;
      [simpl; rewrite Hr; split; [done|by constructor]|].
    destruct (k =? correctIndex q)%Z eqn:Hk;
      [|simpl; rewrite Hr; split; [done|by constructor]].
    simpl. split; [intros t Ht; by rewrite lookup_insert_ne|].
    rewrite lookup_insert_eq.
    match goal with
    | |- room_step _ _ (Some ?x) _ =>
        by apply (rs_win roomId rm x q sid (name p, score p + 1))
    end.
  - (* disconnect *)
    unfold on_disconnect.
    destruct (sockets st !! sid) as [roomId|] eqn:Hs;
      [|exists sid; split; [done|constructor]].
    exists roomId.
    destruct (rooms st !! roomId) as [rm|] eqn:Hr;
      [|simpl; rewrite Hr; split; [done|constructor]].
    destruct (decide (length (obj_keys (obj_delete sid (players rm))) = 0));
      simpl.
    + split; [intros t Ht; by rewrite lookup_delete_ne|].
      rewrite lookup_delete_eq. constructor.
    + split; [intros t Ht; by rewrite lookup_insert_ne|].
      rewrite lookup_insert_eq.
      match goal with
      | |- room_step _ _ (Some ?x) _ => by apply (rs_leave roomId rm x)
      end.
  - (* the timer *)
    unfold on_timer. destruct (timers st) as [|roomId ts];
      [exists EmptyString; split; [done|constructor]|].
    exists roomId.
    apply (startNextRound_room roomId
             {| rooms := rooms st; sockets := sockets st; timers := ts;
                rng := rng st |}).
Qed.

(** ** The invariant along a run *)

Ltac tally :=
  unfold rounds_started, game_total, round_wins in *;
  rewrite ?foldl_app; simpl; rewrite ?decide_True by done.

Lemma quiet_tallies (t : string) (tr out : list emit) :
  Forall (quiet t) out →
  rounds_started t (tr ++ out) = rounds_started t tr ∧
  game_total t (tr ++ out) = game_total t tr ∧
  round_wins t (tr ++ out) = round_wins t tr.
Proof.
  revert tr. induction out as [|e out IH]; intros tr Hq.
  - by rewrite app_nil_r.
  - apply Forall_cons in Hq as [He Hq].
    rewrite (cons_middle e tr out), (assoc_L (++)).
    destruct (IH (tr ++ [e]) Hq) as (-> & -> & ->). tally.
    destruct e as [t' []]; simpl in *; by rewrite ?decide_False.
Qed.

Lemma room_step_quiet (a t : string) o o' (out : list emit) :
  room_step a o o' out → t ≠ a → Forall (quiet t) out.
Proof.
  intros Hstep Hne. destruct Hstep; repeat constructor; simpl; congruence.
Qed.

Lemma good_trace_app (hist o1 o2 : list emit) :
  good_trace hist (o1 ++ o2) ↔
  good_trace hist o1 ∧ good_trace (hist ++ o1) o2.
Proof.
  revert hist. induction o1 as [|e o1 IH]; intros hist; simpl.
  - rewrite app_nil_r. tauto.
  - rewrite IH, <-(assoc_L (++)). simpl. tauto.
Qed.

Lemma good_trace_split (hist out pre post : list emit) (e : emit) :
  good_trace hist out → out = pre ++ e :: post →
  good_event (hist ++ pre) e.
Proof.
  intros Hg ->. apply good_trace_app in Hg as [_ Hg]. simpl in Hg. tauto.
Qed.

Lemma room_inv_new (a : string) (tr : list emit) :
  room_inv a (newRoom a) tr.
Proof.
  split_and!; simpl; [by intros ?|done|lia].
Qed.

Lemma room_inv_same (t : string) (rm rm' : room) (tr out : list emit) :
  room_inv t rm tr → same_round rm rm' → Forall (quiet t) out →
  room_inv t rm' (tr ++ out).
Proof.
  intros (Hround & Hwins & Hgame) (Hgq & Hgi & Hcq & Hact) Hq.
  unfold room_inv, round_inv.
  destruct (quiet_tallies t tr out Hq) as (-> & -> & ->).
  by rewrite Hgq, Hgi, Hcq, Hact.
Qed.

Lemma room_step_inv (a : string) o o' (tr out : list emit) :
  room_step a o o' out →
  (∀ rm, o = Some rm → room_inv a rm tr) →
  (∀ rm', o' = Some rm' → room_inv a rm' (tr ++ out)) ∧
  good_trace tr out.
Proof.
  intros Hstep Hinv.
  destruct Hstep as
    [ o | rm sid b Hact | rm Hle | o rm' Hsame | rm rm' Hsame | rm
    | rm rm' q sid w Hact Hq Hw Hq' Hact' Hgq Hgi
    | rm rm' u ops Hlt Hgi Hgq Hfresh
    | rm rm' u ops Hgi Hfresh
    | rm rm' Hgi Hle Hcq Hact ].
  - rewrite app_nil_r. done.
  - split; [|done]. intros ? [= <-].
    apply (room_inv_same a rm); [by apply Hinv|done|by repeat constructor].
  - split; [|done]. intros ? [= <-].
    apply (room_inv_same a rm); [by apply Hinv|done|by repeat constructor].
  - split; [|done]. intros ? [= <-].
    apply (room_inv_same a (default (newRoom a) o));
      [|done|by repeat constructor].
    destruct o as [rm|]; simpl; [by apply Hinv|apply room_inv_new].
  - split; [|done]. intros ? [= <-].
    apply (room_inv_same a rm); [by apply Hinv|done|by repeat constructor].
  - done.
  - (* a win: the flag is cleared, the counters of the game stay *)
    destruct (Hinv rm eq_refl) as (Hround & Hwins & Hgame).
    split.
    + intros ? [= <-]. unfold room_inv, round_inv.
      split_and!; [congruence|congruence|].
      rewrite Hgq, Hgi.
      intros Hlt. destruct (Hgame Hlt) as [Hc Ht]. tally.
      split; [exact Hc|exact Ht].
    + simpl. split_and!; [done| |done]. specialize (Hwins Hact). by tally.
  - (* the next round *)
    destruct (Hinv rm eq_refl) as (Hround & Hwins & Hgame).
    destruct (Hgame Hlt) as [Hcount Htotal].
    split.
    + intros ? [= <-]. unfold room_inv.
      split_and!; [intros _; apply Hfresh|intros _; by tally|].
      intros _. rewrite Hgi, Hgq. tally. split; [by rewrite Hcount|done].
    + simpl. rewrite Hgi, Hgq, Hcount. done.
  - (* a new game and its first round *)
    destruct (Hinv rm eq_refl) as (Hround & Hwins & Hgame).
    split.
    + intros ? [= <-]. unfold room_inv.
      split_and!; [intros _; apply Hfresh|intros _; by tally|].
      intros _. rewrite Hgi. by tally.
    + simpl. rewrite Hgi. split_and!; try done; by tally.
  - (* a new game over an empty bank *)
    destruct (Hinv rm eq_refl) as (Hround & Hwins & Hgame).
    split; [|done].
    intros ? [= <-]. unfold room_inv, round_inv.
    rewrite Hcq, Hact. split_and!; [done| |lia].
    intros Hact'. specialize (Hwins Hact'). by tally.
Qed.

Ltac in_list :=
  repeat match goal with
         | H : _ ∈ _ :: _ |- _ => apply elem_of_cons in H as [H|H]
         | H : _ ∈ [] |- _ => by apply elem_of_nil in H
         end.

Lemma room_step_question (a : string) o o' (out : list emit)
    (t u : string) (ops : list string) (i n : nat) :
  room_step a o o' out →
  Emit t (questionEv u ops i n) ∈ out →
  t = a ∧
  ∃ rm', o' = Some rm' ∧ gameIndex rm' = i ∧
    length (gameQuestions rm') = n ∧ fresh_round rm'.
Proof.
  intros Hstep Hin. destruct Hstep; in_list; simplify_eq; eauto 10.
Qed.

Lemma step_inv (i : input) (st : state) (tr : list emit) :
  inv st tr →
  inv (step songs i st).1 (tr ++ (step songs i st).2) ∧
  good_trace tr (step songs i st).2.
Proof.
  intros Hinv. destruct (step_room i st) as (a & Hframe & Hstep).
  destruct (room_step_inv a _ _ tr _ Hstep) as [Hinv' Hgood].
  { intros rm Hrm. by apply Hinv. }
  split; [|done]. intros t rm Hlk.
  destruct (decide (t = a)) as [->|Hne]; [by apply Hinv'|].
  rewrite Hframe in Hlk by done.
  apply (room_inv_same t rm rm); [by apply Hinv|done|].
  by eapply room_step_quiet.
Qed.

Lemma run_inv (ins : list input) (st : state) (tr : list emit) :
  inv st tr →
  inv (run songs ins st).1 (tr ++ (run songs ins st).2) ∧
  good_trace tr (run songs ins st).2.
Proof.
  revert st tr. induction ins as [|i ins IH]; intros st tr Hinv.
  - simpl. by rewrite app_nil_r.
  - simpl. destruct (step_inv i st tr Hinv) as [Hinv1 Hgood1].
    destruct (step songs i st) as [st1 out1]. simpl in *.
    destruct (IH st1 (tr ++ out1) Hinv1) as [Hinv2 Hgood2].
    destruct (run songs ins st1) as [st2 out2]. simpl in *.
    rewrite (assoc_L (++)). split; [done|]. by apply good_trace_app.
Qed.

Lemma inv_boot (r : list nat) : inv (boot r) [].
Proof. intros t rm Hlk. simpl in Hlk. by rewrite lookup_empty in Hlk. Qed.

Lemma reachable_inv (r : list nat) (ins : list input) :
  inv (run songs ins (boot r)).1 (run songs ins (boot r)).2 ∧
  good_trace [] (run songs ins (boot r)).2.
Proof. apply (run_inv ins (boot r) []), inv_boot. Qed.

Lemma tally_round_mono (t : string) (l : list emit) (n : nat) :
  (∀ e, e ∈ l → ¬ is_gameStart_to t e) →
  n ≤ foldl (tally_round t) n l.
Proof.
  revert n. induction l as [|e l IH]; intros n Hno; simpl; [done|].
  assert (Hn : n ≤ tally_round t n e).
  { destruct e as [t' []]; simpl; try done.
    - destruct (decide (t' = t)) as [->|]; [|done].
      destruct (Hno (Emit t (gameStart total))); [by left|by eexists].
    - destruct (decide (t' = t)); lia. }
  etrans; [exact Hn|]. apply IH. intros e' He'. apply Hno. by right.
Qed.

Lemma tally_total_keep (t : string) (l : list emit) (o : option nat) :
  (∀ e, e ∈ l → ¬ is_gameStart_to t e) →
  foldl (tally_total t) o l = o.
Proof.
  revert o. induction l as [|e l IH]; intros o Hno; simpl; [done|].
  rewrite IH by (intros e' He'; apply Hno; by right).
  destruct e as [t' []]; simpl; try done.
  destruct (decide (t' = t)) as [->|]; [|done].
  destruct (Hno (Emit t (gameStart total))); [by left|by eexists].
Qed.

(** ** The claims about runs *)

(** C4.  In the trace of any run from start-up, a [question] event sent
    to a room carries as [index] one more than the number of [question]
    events sent to that room since its last [gameStart], that is the
    number of rounds started so far in the game, itself included, and as
    [total] the total announced by that [gameStart]; the index of an
    earlier [question] of the same game is strictly smaller.  Whatever
    the state, a handler that emits a [question] leaves the room with
    [gameIndex] equal to the index sent (the value after the increment)
    and [gameQuestions] of length [total]. *)
Theorem question_index (r : list nat) (ins : list input)
    (pre post : list emit) (t u : string) (o : list string) (i n : nat) :
  (run songs ins (boot r)).2 = pre ++ Emit t (questionEv u o i n) :: post →
  i = S (rounds_started t pre) ∧
  game_total t pre = Some n ∧
  (∀ pre' mid u' o' i' n',
     pre = pre' ++ Emit t (questionEv u' o' i' n') :: mid →
     (∀ e, e ∈ mid → ¬ is_gameStart_to t e) →
     i' < i ∧ n' = n) ∧
  (∀ st inp t1 u1 o1 i1 n1,
     Emit t1 (questionEv u1 o1 i1 n1) ∈ (step songs inp st).2 →
     ∃ rm', rooms (step songs inp st).1 !! t1 = Some rm' ∧
       gameIndex rm' = i1 ∧ length (gameQuestions rm') = n1).
Proof.
  intros Hout. destruct (reachable_inv r ins) as [_ Hgood].
  pose proof (good_trace_split [] _ pre post _ Hgood Hout) as [Hi Hn].
  simpl in Hi, Hn. split_and!; try done.
  - intros pre' mid u' o' i' n' Hpre Hno.
    assert (Hout' : (run songs ins (boot r)).2 =
              pre' ++ Emit t (questionEv u' o' i' n') ::
                (mid ++ Emit t (questionEv u o i n) :: post)).
    { rewrite Hout, Hpre, <-(assoc_L (++)). done. }
    pose proof (good_trace_split [] _ _ _ _ Hgood Hout') as [Hi' Hn'].
    simpl in Hi', Hn'. subst pre i i'.
    unfold rounds_started, game_total in *.
    rewrite foldl_app in Hn. rewrite foldl_app. simpl in Hn |- *.
    rewrite decide_True by done.
    rewrite tally_total_keep in Hn by done.
    split; [|congruence].
    pose proof (tally_round_mono t mid
                  (S (foldl (tally_round t) 0 pre')) Hno). lia.
  - intros st inp t1 u1 o1 i1 n1 Hin.
    destruct (step_room inp st) as (a & Hframe & Hstep).
    destruct (room_step_question _ _ _ _ _ _ _ _ _ Hstep Hin)
      as (-> & rm' & Hrm' & ? & ? & _).
    by exists rm'.
Qed.

Lemma room_step_winner (a : string) o o' (out : list emit)
    (rm rm' : room) (q : question) :
  room_step a o o' out →
  o = Some rm → o' = Some rm' →
  currentQuestion rm = Some q →
  (roundActive rm = true → winnerSocketId q = None) →
  currentQuestion rm' = Some q ∨
  (winnerSocketId q = None ∧
   ∃ sid, currentQuestion rm' =
            Some {| q_title := q_title q; q_audioUrl := q_audioUrl q;
                    correctIndex := correctIndex q;
                    winnerSocketId := Some sid |} ∧
     roundActive rm' = false ∧
     ∃ w ps, Emit a (roundResult (correctIndex q) (sid, w.1, w.2) ps)
               ∈ out) ∨
  (fresh_round rm' ∧ ∃ e, e ∈ out ∧ is_question_to a e).
Proof.
  intros Hstep Ho Ho' Hq Hround.
  destruct Hstep as
    [ o | rm0 sid b Hact | rm0 Hle | o rm1 Hsame | rm0 rm1 Hsame | rm0
    | rm0 rm1 q0 sid w Hact Hq0 Hw Hq1 Hact1 Hgq Hgi
    | rm0 rm1 u ops Hlt Hgi Hgq Hfresh
    | rm0 rm1 u ops Hgi Hfresh
    | rm0 rm1 Hgi Hle Hcq Hact ]; simplify_eq/=.
  - by left.
  - by left.
  - by left.
  - left. destruct Hsame as (_ & _ & -> & _). done.
  - left. destruct Hsame as (_ & _ & -> & _). done.
  - right. left. split; [by apply Hround|].
    exists sid. split_and!; [done|done|].
    exists w, (players rm'). right. by left.
  - right. right. split; [done|]. eexists. split; [by left|].
    by repeat eexists.
  - right. right. split; [done|]. eexists. split; [right; by left|].
    by repeat eexists.
  - left. congruence.
Qed.

Lemma room_step_game_over (a : string) o o' (out : list emit) :
  room_step a o o' out →
  (∀ rm, o = Some rm → length (gameQuestions rm) ≤ gameIndex rm) →
  (∃ e, e ∈ out ∧ is_gameStart_to a e) ∨
  ((∀ rm', o' = Some rm' → length (gameQuestions rm') ≤ gameIndex rm') ∧
   ∀ e, e ∈ out → ¬ is_question_to a e).
Proof.
  intros Hstep Hover.
  destruct Hstep as
    [ o | rm0 sid b Hact | rm0 Hle | o rm1 Hsame | rm0 rm1 Hsame | rm0
    | rm0 rm1 q0 sid w Hact Hq0 Hw Hq1 Hact1 Hgq Hgi
    | rm0 rm1 u ops Hlt Hgi Hgq Hfresh
    | rm0 rm1 u ops Hgi Hfresh
    | rm0 rm1 Hgi Hle Hcq Hact ].
  - right. split; [done|]. intros e He. in_list.
  - right. split; [done|]. intros e He (?&?&?&?&?). in_list; simplify_eq.
  - right. split; [done|]. intros e He (?&?&?&?&?). in_list; simplify_eq.
  - right. split.
    + intros ? [= <-]. destruct Hsame as (-> & -> & _).
      destruct o as [rm|]; simpl; [by apply Hover|done].
    + intros e He (?&?&?&?&?). in_list; simplify_eq.
  - right. split.
    + intros ? [= <-]. destruct Hsame as (-> & -> & _). by apply Hover.
    + intros e He (?&?&?&?&?). in_list; simplify_eq.
  - right. split; [done|]. intros e He. in_list.
  - right. split.
    + intros ? [= <-]. rewrite Hgq, Hgi. by apply Hover.
    + intros e He (?&?&?&?&?). in_list; simplify_eq.
  - specialize (Hover rm0 eq_refl). lia.
  - left. eexists. split; [by left|by eexists].
  - left. eexists. split; [by left|by eexists].
Qed.

Lemma run_game_over (t : string) (ins : list input) (st : state) :
  (∀ rm, rooms st !! t = Some rm →
     length (gameQuestions rm) ≤ gameIndex rm) →
  (∀ e, e ∈ (run songs ins st).2 → ¬ is_gameStart_to t e) →
  ∀ e, e ∈ (run songs ins st).2 → ¬ is_question_to t e.
Proof.
  revert st. induction ins as [|i ins IH]; intros st Hover Hno e He.
  - simpl in He. in_list.
  - simpl in Hno, He.
    destruct (step_room i st) as (a & Hframe & Hstep).
    destruct (step songs i st) as [st1 out1]. simpl in *.
    specialize (IH st1).
    destruct (run songs ins st1) as [st2 out2]. simpl in *.
    assert (Hno1 : ∀ e, e ∈ out1 → ¬ is_gameStart_to t e).
    { intros e' He'. apply Hno, elem_of_app. by left. }
    assert (Hno2 : ∀ e, e ∈ out2 → ¬ is_gameStart_to t e).
    { intros e' He'. apply Hno, elem_of_app. by right. }
    assert (Hst1 : (∀ rm, rooms st1 !! t = Some rm →
                      length (gameQuestions rm) ≤ gameIndex rm) ∧
                   ∀ e, e ∈ out1 → ¬ is_question_to t e).
    { destruct (decide (t = a)) as [->|Hne].
      - destruct (room_step_game_over _ _ _ _ Hstep Hover)
          as [(e' & He' & Hgs)|?]; [|done].
        by destruct (Hno1 e' He').
      - rewrite Hframe by done. split; [done|].
        intros e' He' (?&?&?&?&->).
        pose proof (room_step_quiet _ t _ _ _ Hstep Hne) as Hq.
        rewrite Forall_forall in Hq. by apply Hq in He'. }
    destruct Hst1 as [Hover1 Hnq1].
    apply elem_of_app in He as [He|He]; [by apply Hnq1|].
    by apply (IH Hover1 Hno2).
Qed.

(** C2.  In every state reached by a run of joins, starts, answers,
    disconnects and timer firings from start-up, a room with
    [roundActive] set has a current question with no winner recorded.
    One more handler leaves the current question of a room as it is,
    or records the caller as winner of a question that had none (and then
    clears [roundActive] and broadcasts the [roundResult]), or replaces it
    by the question of a new round, announced by a [question] event: a
    recorded winner is never changed.  In the trace, every [roundResult]
    sent to a room is the first since the last [question] sent to it: a
    round has at most one winner. *)
Theorem round_invariant (r : list nat) (ins : list input) :
  let st := (run songs ins (boot r)).1 in
  let out := (run songs ins (boot r)).2 in
  (∀ t rm, rooms st !! t = Some rm → round_inv rm) ∧
  (∀ i t rm q rm',
     rooms st !! t = Some rm → currentQuestion rm = Some q →
     rooms (step songs i st).1 !! t = Some rm' →
     currentQuestion rm' = Some q ∨
     (winnerSocketId q = None ∧
      ∃ sid, currentQuestion rm' =
               Some {| q_title := q_title q; q_audioUrl := q_audioUrl q;
                       correctIndex := correctIndex q;
                       winnerSocketId := Some sid |} ∧
        roundActive rm' = false ∧
        ∃ w ps, Emit t (roundResult (correctIndex q) (sid, w.1, w.2) ps)
                  ∈ (step songs i st).2) ∨
     (fresh_round rm' ∧
      ∃ e, e ∈ (step songs i st).2 ∧ is_question_to t e)) ∧
  (∀ pre post t c w ps,
     out = pre ++ Emit t (roundResult c w ps) :: post →
     round_wins t pre = 0).
Proof.
  intros st out. destruct (reachable_inv r ins) as [Hinv Hgood].
  fold st out in Hinv, Hgood. split_and!.
  - intros t rm Hrm. by destruct (Hinv t rm Hrm).
  - intros i t rm q rm' Hrm Hq Hrm'.
    destruct (step_room i st) as (a & Hframe & Hstep).
    destruct (decide (t = a)) as [->|Hne].
    + eapply room_step_winner; [exact Hstep|done..|].
      intros Hact.
      destruct (Hinv a rm Hrm) as (Hround & _).
      destruct (Hround Hact) as (q' & Hq' & Hnone). congruence.
    + rewrite Hframe in Hrm' by done. left. congruence.
  - intros pre post t c w ps Hout.
    by apply (good_trace_split [] _ pre post _ Hgood Hout).
Qed.

(** C1 (amended).  In every state reached by a run from start-up, a
    room whose current question has a recorded winner has [roundActive]
    cleared, and an answer sent by a connection of that room is dropped:
    nothing is emitted, not even an [answerResult], and the state is
    unchanged. *)
Theorem late_answer_dropped (r : list nat) (ins : list input)
    (sid roomId : string) (k : Z) (rm : room) (q : question) (w : string) :
  let st := (run songs ins (boot r)).1 in
  sockets st !! sid = Some roomId →
  rooms st !! roomId = Some rm →
  currentQuestion rm = Some q →
  winnerSocketId q = Some w →
  roundActive rm = false ∧ on_answer sid k st = (st, []).
Proof.
  intros st Hs Hrm Hq Hw.
  destruct (reachable_inv r ins) as [Hinv _]. fold st in Hinv.
  destruct (Hinv roomId rm Hrm) as (Hround & _).
  assert (Hact : roundActive rm = false).
  { destruct (roundActive rm) eqn:Hact; [|done].
    destruct (Hround Hact) as (q' & Hq' & Hnone). congruence. }
  split; [done|]. unfold on_answer. by rewrite Hs, Hrm, Hact.
Qed.

Lemma game_over_step (st : state) (roomId : string) (rm : room) :
  rooms st !! roomId = Some rm →
  length (gameQuestions rm) ≤ gameIndex rm →
  startNextRound songs roomId st =
    (st, [Emit roomId (gameEnd (players rm))]) ∧
  (∀ ts, timers st = roomId :: ts →
     (on_timer songs st).2 = [Emit roomId (gameEnd (players rm))] ∧
     rooms (on_timer songs st).1 = rooms st) ∧
  (∀ ins,
     (∀ e, e ∈ (run songs ins st).2 → ¬ is_gameStart_to roomId e) →
     ∀ e, e ∈ (run songs ins st).2 → ¬ is_question_to roomId e) ∧
  (∀ sid nm, ∃ rm',
     rooms (on_joinRoom sid roomId nm st).1 !! roomId = Some rm' ∧
     obj_get sid (players rm') = Some {| name := nm; score := 0 |}) ∧
  (∀ sid, sockets st !! sid = Some roomId → hostId rm = Some sid →
     ∃ out, (on_startGame songs sid st).2 =
              Emit roomId (gameStart (min 10 (length songs))) :: out).
Proof.
  intros Hr Hle. split_and!.
  - unfold startNextRound. rewrite Hr. by rewrite decide_True.
  - intros ts Hts. unfold on_timer, startNextRound. rewrite Hts. simpl.
    rewrite Hr. by rewrite decide_True.
  - intros ins. apply run_game_over. intros rm0 Hrm0. congruence.
  - intros sid nm.
    apply on_joinRoom_lookup.
  - intros sid Hs Hh. unfold on_startGame. rewrite Hs, Hr.
    rewrite decide_True by done.
    pose proof (shuffle_perm songs (rng st)) as Hp.
    destruct (shuffle songs (rng st)) as [shuffled r0]. simpl in Hp.
    match goal with
    | |- context [startNextRound ?s ?a ?x] =>
        destruct (startNextRound s a x) as [st2 out]
    end.
    exists out. simpl. by rewrite length_take, Hp.
Qed.

End properties.

(** ** The theorems at concrete inputs *)

Definition bank1 : list song := [Song "A" "/a"].

Definition bank2 : list song := [Song "A" "/a"; Song "B" "/b"].

Definition bank5 : list song :=
  [Song "A" "/a"; Song "B" "/b"; Song "C" "/c"; Song "D" "/d"; Song "E" "/e"].

(** Two files with the same base name give two songs with one title. *)
Definition bank_dup : list song :=
  [Song "A" "/a.mp3"; Song "B" "/x/B.mp3"; Song "B" "/y/B.mp3";
   Song "C" "/c.mp3"; Song "D" "/d.mp3"].

(** A player wins the only round of a one-song game. *)
Definition won1 : state :=
  (run bank1 [JoinRoom "s1" "R" "ann"; StartGame "s1"; Answer "s1" 0]
     (boot [])).1.

(** The host starts a second game before the timer of the first has
    fired, and wins its only round too. *)
Definition restart : list input :=
  [JoinRoom "s1" "R" "ann"; StartGame "s1"; Answer "s1" 0;
   StartGame "s1"; Answer "s1" 0; TimerFire; TimerFire].

(** The last player leaves while the round-advance timer is pending. *)
Definition emptied : state :=
  (run bank1 [JoinRoom "s1" "R" "ann"; StartGame "s1"; Answer "s1" 0;
              Disconnect "s1"] (boot [])).1.

Definition two_joined : state :=
  (run bank1 [JoinRoom "s1" "R" "ann"; JoinRoom "s2" "R" "bob"]
     (boot [])).1.

Definition two_rounds : list input :=
  [JoinRoom "s1" "R" "ann"; StartGame "s1"; Answer "s1" 1; TimerFire].

Lemma late_answer_dropped_witness : on_answer "s1" 0 won1 = (won1, []).
Proof.
  eapply proj2.
  eapply (late_answer_dropped bank1 []
            [JoinRoom "s1" "R" "ann"; StartGame "s1"; Answer "s1" 0]
            "s1" "R" 0); vm_compute; reflexivity.
Defined.

(** C1, as stated, fails: the room is there, its current question has a
    recorded winner, the sender is one of its players, and the answer
    brings no [answerResult]. *)
Lemma late_answer_counterexample :
  (∃ rm q w,
     sockets won1 !! "s1" = Some "R" ∧ rooms won1 !! "R" = Some rm ∧
     currentQuestion rm = Some q ∧ winnerSocketId q = Some w ∧
     is_Some (obj_get "s1" (players rm))) ∧
  ∀ b, Emit "s1" (answerResult b) ∉ (on_answer "s1" 0 won1).2.
Proof.
  split.
  - do 3 eexists. split_and!; [vm_compute; reflexivity..|].
    vm_compute. by eexists.
  - intros b Hin. vm_compute in Hin. by apply elem_of_nil in Hin.
Qed.

Lemma round_invariant_witness :
  round_wins "R"
    [Emit "R" (roomState "R" (Some "s1")
                 [("s1", {| name := "ann"; score := 0 |})]);
     Emit "R" (gameStart 1); Emit "R" (questionEv "/a" ["A"] 1 1);
     Emit "s1" (answerResult true)] = 0.
Proof.
  eapply (proj2 (proj2 (round_invariant bank1 []
            [JoinRoom "s1" "R" "ann"; StartGame "s1"; Answer "s1" 0]))).
  vm_compute. reflexivity.
Defined.

Lemma generateOptions_shape_witness :
  NoDup (generateOptions bank5 "A" [0; 0; 0; 0; 0; 0]).1.1 ∧
  length (generateOptions bank5 "A" [0; 0; 0; 0; 0; 0]).1.1 = 4.
Proof.
  destruct (generateOptions_shape bank5 "A" [0; 0; 0; 0; 0; 0])
    as (_ & _ & _ & _ & _ & _ & Hnd).
  destruct Hnd as (Hnd & H4 & _).
  - vm_compute. by apply (bool_decide_unpack _).
  - split; [exact Hnd|]. apply H4. vm_compute. lia.
Defined.

(** C3, as stated, fails: the bank has four distinct titles and the
    options are not four distinct titles. *)
Lemma generateOptions_counterexample :
  length (remove_dups (title <$> bank_dup)) = 4 ∧
  (generateOptions bank_dup "A" [3; 2; 1; 3; 2; 1]).1.1
    = ["A"; "B"; "B"; "C"] ∧
  ¬ NoDup (generateOptions bank_dup "A" [3; 2; 1; 3; 2; 1]).1.1.
Proof.
  split_and!; [vm_compute; reflexivity..|].
  intros Hnd. vm_compute in Hnd.
  apply NoDup_cons in Hnd as [_ Hnd]. apply NoDup_cons in Hnd as [Hin _].
  apply Hin. by left.
Qed.

Lemma question_index_witness :
  2 = S (rounds_started "R"
           [Emit "R" (roomState "R" (Some "s1")
                        [("s1", {| name := "ann"; score := 0 |})]);
            Emit "R" (gameStart 2);
            Emit "R" (questionEv "/b" ["A"; "B"] 1 2);
            Emit "s1" (answerResult true);
            Emit "R" (roundResult 1 ("s1", "ann", 1)
                        [("s1", {| name := "ann"; score := 1 |})])]).
Proof.
  eapply proj1.
  eapply (question_index bank2 [] two_rounds _ [] "R" "/a" ["B"; "A"] 2 2).
  vm_compute. reflexivity.
Defined.

(** C5, as stated, fails: the second game of this run sees two [gameEnd]
    events, one for each pending timer. *)
Lemma game_end_counterexample :
  game_ends "R" (run bank1 restart (boot [])).2 = 2.
Proof. vm_compute. reflexivity. Qed.

Lemma disconnect_effect_witness :
  obj_get "s1" (obj_delete "s1"
    [("s1", {| name := "ann"; score := 0 |});
     ("s2", {| name := "bob"; score := 0 |})]) = None.
Proof.
  eapply proj1.
  eapply (disconnect_effect two_joined "s1" "R"
            {| id := "R"; hostId := Some "s1";
               players := [("s1", {| name := "ann"; score := 0 |});
                           ("s2", {| name := "bob"; score := 0 |})];
               gameQuestions := []; gameIndex := 0;
               currentQuestion := None; roundActive := false |});
    vm_compute; reflexivity.
Defined.

Lemma timer_on_absent_room_witness :
  startNextRound bank1 "R" emptied = (emptied, []).
Proof.
  eapply proj1. eapply (timer_on_absent_room bank1 emptied "R").
  vm_compute. reflexivity.
Defined.

Lemma startGame_ignored_witness :
  on_startGame bank1 "s2" two_joined = (two_joined, []).
Proof.
  apply (startGame_ignored bank1 two_joined "s2").
  intros roomId rm Hs Hr. vm_compute in Hs. injection Hs as <-.
  vm_compute in Hr. injection Hr as <-. simpl. discriminate.
Defined.

Lemma joinRoom_effect_witness :
  ∃ rm', rooms (on_joinRoom "s1" "R" "ann" (boot [])).1 !! "R" = Some rm' ∧
    hostId rm' = Some "s1".
Proof.
  destruct (joinRoom_effect (boot []) "s1" "R" "ann")
    as (rm' & Hrm' & Hhost & _).
  exists rm'. split; [exact Hrm'|]. apply Hhost. vm_compute. reflexivity.
Defined.

Lemma stale_entry_kept_witness :
  sockets (on_joinRoom "s1" "B" "ann"
             (on_joinRoom "s1" "A" "ann" (boot [])).1).1 !! "s1" = Some "B".
Proof.
  eapply proj1. eapply (stale_entry_kept (boot []) "s1" "A" "B" "ann" "ann").
  discriminate.
Defined.

(** * Further properties of the code *)

(** ** [shuffle] *)

Lemma shuffle_from_rng {A} (i : nat) (arr : list A) (r : list nat) :
  (shuffle_from i arr r).2 = drop i r.
Proof.
  revert arr r. induction i as [|i IH]; intros arr r; [done|].
  cbn [shuffle_from]. destruct r as [|x r]; simpl; rewrite IH; [|done].
  by rewrite drop_nil.
Qed.

Lemma swap_length {A} (i j : nat) (arr : list A) :
  length (swap i j arr) = length arr.
Proof.
  unfold swap. destruct (arr !! i), (arr !! j); try done.
  by rewrite !length_insert.
Qed.

Lemma swap_lookup {A} (i j : nat) (arr : list A) (a b : A) :
  arr !! i = Some a → arr !! j = Some b → swap i j arr !! i = Some b.
Proof.
  intros Hi Hj. unfold swap. rewrite Hi, Hj.
  destruct (decide (i = j)) as [->|Hne].
  - rewrite list_lookup_insert_eq; [congruence|].
    rewrite length_insert. by eapply lookup_lt_Some.
  - rewrite list_lookup_insert_ne by done.
    apply list_lookup_insert_eq. by eapply lookup_lt_Some.
Qed.

Lemma swap_take {A} (n i j : nat) (arr : list A) :
  i < n → j < n → take n (swap i j arr) ≡ₚ take n arr.
Proof.
  intros Hi Hj. unfold swap.
  destruct (arr !! i) as [a|] eqn:Ha; [|done].
  destruct (arr !! j) as [b|] eqn:Hb; [|done].
  rewrite !take_insert_lt by done.
  apply Permutation_insert_swap; by rewrite lookup_take_lt.
Qed.

Lemma swap_drop {A} (n i j : nat) (arr : list A) :
  i < n → j < n → drop n (swap i j arr) = drop n arr.
Proof.
  intros Hi Hj. unfold swap.
  destruct (arr !! i) as [a|]; [|done].
  destruct (arr !! j) as [b|]; [|done].
  by rewrite !drop_insert_lt.
Qed.

Lemma shuffle_from_reach {A} (i : nat) (arr l : list A) :
  i < length arr → length l = length arr →
  take (S i) l ≡ₚ take (S i) arr → drop (S i) l = drop (S i) arr →
  ∃ r, length r = i ∧ (shuffle_from i arr r).1 = l.
Proof.
  revert arr. induction i as [|i IH]; intros arr Hi Hlen Htake Hdrop.
  - exists []. split; [done|]. simpl.
    destruct arr as [|a arr], l as [|b l]; simpl in *; try lia.
    apply Permutation_singleton_inj in Htake as ->.
    rewrite !drop_0 in Hdrop. by subst.
  - destruct (lookup_lt_is_Some_2 l (S i)) as [x Hx]; [lia|].
    assert (Hin : x ∈ take (S (S i)) arr).
    { rewrite <-Htake. apply elem_of_take. exists (S i). split; [done|lia]. }
    apply elem_of_take in Hin as (j & Hj & Hjlt).
    destruct (lookup_lt_is_Some_2 arr (S i)) as [y Hy]; [lia|].
    pose proof (swap_lookup (S i) j arr y x Hy Hj) as Hsw.
    destruct (IH (swap (S i) j arr)) as (r & Hr & Hres).
    + rewrite swap_length. lia.
    + by rewrite swap_length.
    + apply (Permutation_app_inv_r [x]).
      rewrite <-(take_S_r l (S i) x Hx).
      rewrite <-(take_S_r (swap (S i) j arr) (S i) x Hsw).
      rewrite Htake. symmetry. apply swap_take; lia.
    + rewrite (drop_S l x (S i) Hx), (drop_S _ x (S i) Hsw).
      rewrite swap_drop by lia. by rewrite Hdrop.
    + exists (j :: r). split; [simpl; lia|].
      cbn [shuffle_from draw].
      replace (j `mod` (S i + 1)) with j; [done|].
      symmetry. apply Nat.mod_small. lia.
Qed.

(** X1.  [shuffle] returns the elements it was given, as often as it was
    given them, in some order; the array keeps its length, and an array of
    [n] elements takes [n - 1] random draws, none when it is empty. *)
Theorem shuffle_permutes {A} (arr : list A) (r : list nat) :
  (shuffle arr r).1 ≡ₚ arr ∧
  length (shuffle arr r).1 = length arr ∧
  (shuffle arr r).2 = drop (length arr - 1) r.
Proof.
  pose proof (shuffle_perm arr r) as Hp. split_and!.
  - done.
  - by rewrite Hp.
  - apply shuffle_from_rng.
Qed.

(** X2.  Every ordering of the array can come out of [shuffle]: for each
    permutation of the array there are [length arr - 1] draws that
    produce it. *)
Theorem shuffle_reaches_every_order {A} (arr l : list A) :
  l ≡ₚ arr →
  ∃ r, length r = length arr - 1 ∧ (shuffle arr r).1 = l.
Proof.
  intros Hp. pose proof (Permutation_length Hp) as Hlen.
  destruct arr as [|a arr].
  - apply Permutation_nil_r in Hp as ->. by exists [].
  - unfold shuffle. apply shuffle_from_reach.
    + simpl. lia.
    + done.
    + rewrite !take_ge by (simpl in *; lia). done.
    + rewrite !drop_ge by (simpl in *; lia). done.
Qed.

(** ** [getOrCreateRoom] *)

(** X3.  [getOrCreateRoom] returns the room the registry holds for the
    id after the call; an existing room is returned as it is and the
    registry is unchanged, a missing one is created empty (no host, no
    player, no game); other ids are not touched, and a second call returns
    the same room and changes nothing. *)
Theorem getOrCreateRoom_idempotent (roomId : string) (m : gmap string room) :
  let rm := (getOrCreateRoom roomId m).1 in
  let m' := (getOrCreateRoom roomId m).2 in
  m' !! roomId = Some rm ∧
  getOrCreateRoom roomId m' = (rm, m') ∧
  (∀ t, t ≠ roomId → m' !! t = m !! t) ∧
  (∀ rm0, m !! roomId = Some rm0 → rm = rm0 ∧ m' = m) ∧
  (m !! roomId = None → rm = newRoom roomId).
Proof.
  unfold getOrCreateRoom. destruct (m !! roomId) as [rm0|] eqn:Hm; simpl.
  - rewrite Hm. split_and!; try done. by intros ? [= <-].
  - rewrite lookup_insert_eq. split_and!; try done.
    intros t Ht. by rewrite lookup_insert_ne.
Qed.

(** ** [scanAudioDir] *)

Lemma string_app_assoc (s1 s2 s3 : string) :
  (s1 +:+ s2) +:+ s3 = s1 +:+ (s2 +:+ s3).
Proof.
  induction s1 as [|c s1 IH]; [done|].
  change (String c ((s1 +:+ s2) +:+ s3) = String c (s1 +:+ (s2 +:+ s3))).
  by rewrite IH.
Qed.

Lemma string_app_empty (s : string) : s +:+ EmptyString = s.
Proof.
  induction s as [|c s IH]; [done|].
  change (String c (s +:+ EmptyString) = String c s). by rewrite IH.
Qed.

Lemma dirent_rect_nested (P : dirent → Prop) :
  (∀ nm, P (File nm)) →
  (∀ nm entries, Forall P entries → P (Dir nm entries)) →
  ∀ e, P e.
Proof.
  intros Hfile Hdir.
  fix IH 1. intros [nm|nm entries]; [apply Hfile|].
  apply Hdir. induction entries as [|e entries IHl]; constructor; auto.
Qed.

Section loader_facts.
Variable extname : string → string.
Variable toLowerCase : string → string.
Variable basename : string → string → string.

#[local] Abbreviation scanEntry := (scanEntry extname toLowerCase basename).
#[local] Abbreviation scanAudioDir := (scanAudioDir extname toLowerCase basename).
#[local] Abbreviation initSongDatabase := (initSongDatabase extname toLowerCase basename).
#[local] Abbreviation audio_files := (audio_files extname toLowerCase).
#[local] Abbreviation song_of_file := (song_of_file extname toLowerCase basename).

Lemma scan_list (baseUrl : string) (entries : list dirent) :
  Forall (λ e, ∀ b acc,
            scanEntry b e acc = acc ++ (song_of_file b <$> audio_files e))
         entries →
  ∀ acc,
    foldl (λ acc e, scanEntry baseUrl e acc) acc entries =
    acc ++ (song_of_file baseUrl <$> (entries ≫= audio_files)).
Proof.
  induction 1 as [|e entries He _ IH]; intros acc; simpl.
  - by rewrite app_nil_r.
  - rewrite IH, He, fmap_app, (assoc_L (++)). done.
Qed.

Lemma scanEntry_files (e : dirent) :
  ∀ baseUrl acc,
    scanEntry baseUrl e acc =
    acc ++ (song_of_file baseUrl <$> audio_files e).
Proof.
  induction e as [nm|nm entries IH] using dirent_rect_nested;
    intros baseUrl acc.
  - simpl. destruct (decide (toLowerCase (extname nm) ∈ AUDIO_EXT)); simpl;
      [done|by rewrite app_nil_r].
  - simpl.
    rewrite (scan_list _ _ IH). f_equal.
    rewrite <-list_fmap_compose. done.
Qed.

Lemma url_under_base (baseUrl : string) (dirs : list string) :
  ∃ rest, url_under baseUrl dirs = baseUrl +:+ rest.
Proof.
  revert baseUrl. induction dirs as [|d dirs IH]; intros baseUrl.
  - exists EmptyString. by rewrite string_app_empty.
  - destruct (IH (baseUrl +:+ "/" +:+ d)) as [rest Hrest].
    exists ("/" +:+ d +:+ rest). unfold url_under in *. simpl.
    rewrite Hrest. by rewrite !string_app_assoc.
Qed.

Lemma scanAudioDir_spec (entries : list dirent) (baseUrl : string)
    (acc : list song) :
  scanAudioDir entries baseUrl acc =
    acc ++ (song_of_file baseUrl <$> (entries ≫= audio_files)).
Proof.
  apply scan_list. apply Forall_forall. intros e _. apply scanEntry_files.
Qed.

(** X4.  [scanAudioDir] leaves the songs already loaded in place and
    appends one song for each file of the tree whose lower-cased extension
    is one of [AUDIO_EXT], in the order of the depth-first walk: its title
    is [path.basename] of the file name and that lower-cased extension,
    and its URL is the base URL followed by the folders and the file name.
    Other files add nothing, and the URL of every song added starts with
    the base URL and a slash. *)
Theorem scanAudioDir_files (entries : list dirent) (baseUrl : string)
    (acc : list song) :
  scanAudioDir entries baseUrl acc =
    acc ++ (song_of_file baseUrl <$> (entries ≫= audio_files)) ∧
  ∀ sg, sg ∈ scanAudioDir entries baseUrl [] →
    ∃ rest, audioUrl sg = baseUrl +:+ "/" +:+ rest.
Proof.
  split; [apply scanAudioDir_spec|].
  intros sg Hsg. rewrite scanAudioDir_spec in Hsg. simpl in Hsg.
  apply list_elem_of_fmap in Hsg as ([dirs nm] & -> & _). simpl.
  destruct dirs as [|d dirs]; [by eexists|].
  destruct (url_under_base (baseUrl +:+ "/" +:+ d) dirs) as [rest Hrest].
  unfold url_under in *. simpl. rewrite Hrest.
  exists (d +:+ rest +:+ "/" +:+ nm). by rewrite !string_app_assoc.
Qed.

End loader_facts.

(** ** The keys of [room.players] *)

Section js_object_keys.
Context {V : Type}.
Implicit Types (o : list (string * V)) (k : string) (v : V).

Lemma obj_keys_set_in k v o :
  k ∈ obj_keys o → obj_keys (obj_set k v o) = obj_keys o.
Proof.
  unfold obj_keys. induction o as [|[k' v'] o IH]; simpl; intros Hk.
  - by apply elem_of_nil in Hk.
  - destruct (decide (k' = k)) as [->|Hne]; simpl; [done|].
    apply elem_of_cons in Hk as [->|Hk]; [done|]. f_equal. by apply IH.
Qed.

Lemma obj_keys_set_new k v o :
  k ∉ obj_keys o → obj_keys (obj_set k v o) = obj_keys o ++ [k].
Proof.
  unfold obj_keys. induction o as [|[k' v'] o IH]; simpl; intros Hk; [done|].
  apply not_elem_of_cons in Hk as [Hne Hk].
  rewrite decide_False by done. simpl. f_equal. by apply IH.
Qed.

Lemma obj_keys_set_elem k k' v o :
  k' ∈ obj_keys (obj_set k v o) ↔ k' = k ∨ k' ∈ obj_keys o.
Proof.
  destruct (decide (k ∈ obj_keys o)) as [Hin|Hout].
  - rewrite obj_keys_set_in by done. split; [by right|].
    by intros [->|?].
  - rewrite obj_keys_set_new, elem_of_app, list_elem_of_singleton by done.
    tauto.
Qed.

Lemma obj_keys_set_NoDup k v o :
  NoDup (obj_keys o) → NoDup (obj_keys (obj_set k v o)).
Proof.
  intros Hnd. destruct (decide (k ∈ obj_keys o)) as [Hin|Hout].
  - by rewrite obj_keys_set_in.
  - rewrite obj_keys_set_new by done. apply NoDup_app. split_and!; [done| |].
    + intros x Hx ->%list_elem_of_singleton. done.
    + apply NoDup_singleton.
Qed.

Lemma obj_keys_delete k o :
  obj_keys (obj_delete k o) = filter (λ x, x ≠ k) (obj_keys o).
Proof.
  unfold obj_keys, obj_delete. induction o as [|[k' v'] o IH]; [done|].
  rewrite fmap_cons, !filter_cons. cbn [fst].
  destruct (decide (k' ≠ k)); rewrite ?fmap_cons; cbn [fst]; by rewrite IH.
Qed.
End js_object_keys.

(** ** The invariants of the engine *)

Section engine_facts.
Variable songs : list song.

Ltac pick_event :=
  repeat match goal with
         | H : _ ∈ _ :: _ |- _ => apply elem_of_cons in H as [H|H]
         | H : _ ∈ [] |- _ => by apply elem_of_nil in H
         end.

Lemma unique_position (l w : list string) (c : string) (i j : nat) :
  l ≡ₚ c :: w → c ∉ w → l !! i = Some c → l !! j = Some c → i = j.
Proof.
  intros Hp Hc Hi Hj. destruct (decide (i = j)) as [|Hne]; [done|].
  exfalso. apply Hc.
  assert (Hd : delete i l ≡ₚ w).
  { apply (Permutation_cons_inv (a := c)).
    by rewrite <-Hp, <-(delete_Permutation _ _ _ Hi). }
  rewrite <-Hd. apply list_elem_of_lookup.
  destruct (decide (j < i)).
  - exists j. by rewrite list_lookup_delete_lt.
  - exists (j - 1). rewrite list_lookup_delete_ge by lia.
    replace (S (j - 1)) with j by lia. done.
Qed.

Lemma generateOptions_key (correctTitle : string) (r : list nat) :
  let options := (generateOptions songs correctTitle r).1.1 in
  let ci := (generateOptions songs correctTitle r).1.2 in
  (0 ≤ ci < 4)%Z ∧ length options ≤ 4 ∧
  ∀ k, options !! k = Some correctTitle ↔ Z.of_nat k = ci.
Proof.
  intros options ci. subst options ci. unfold generateOptions.
  set (wrong := filter (λ t, t ≠ correctTitle) (title <$> songs)).
  pose proof (shuffle_perm wrong r) as Hp1.
  destruct (shuffle wrong r) as [titles r1]. simpl in Hp1.
  pose proof (shuffle_perm (correctTitle :: take 3 titles) r1) as Hp2.
  destruct (shuffle (correctTitle :: take 3 titles) r1) as [options r2].
  simpl in Hp2. simpl.
  assert (Hlen : length options ≤ 4).
  { rewrite Hp2. simpl. rewrite length_take. lia. }
  assert (Hnot : correctTitle ∉ take 3 titles).
  { intros Ht%(subseteq_take 3 titles). rewrite Hp1 in Ht. unfold wrong in Ht.
    by apply list_elem_of_filter in Ht as [? _]. }
  assert (Hin : correctTitle ∈ options) by (rewrite Hp2; left).
  destruct (indexOf_found options correctTitle Hin) as [Hge Hat].
  pose proof (lookup_lt_Some _ _ _ Hat) as Hlt.
  split_and!; [done|lia|done|].
  intros k. split.
  - intros Hk.
    pose proof (unique_position _ _ _ _ _ Hp2 Hnot Hk Hat). lia.
  - intros Hk. by rewrite <-Hk, Nat2Z.id in Hat.
Qed.

Lemma wf_boot (r : list nat) : wf songs (boot r).
Proof. split; intros ? ? H; simpl in H; by rewrite lookup_empty in H. Qed.

Lemma wf_update (st : state) (a : string) (rm rm' : room)
    (tm : list string) (rg : list nat) :
  wf songs st → rooms st !! a = Some rm → wf_room songs a rm' →
  (∀ k, k ∈ obj_keys (players rm) → k ∈ obj_keys (players rm')) →
  wf songs {| rooms := <[a:=rm']> (rooms st); sockets := sockets st;
              timers := tm; rng := rg |}.
Proof.
  intros [Hrooms Hsocks] Hrm Hwf Hkeys. split; simpl.
  - intros t rm0. destruct (decide (t = a)) as [->|Hne].
    + rewrite lookup_insert_eq. by intros [= <-].
    + rewrite lookup_insert_ne by done. apply Hrooms.
  - intros sid r Hsid.
    destruct (Hsocks sid r Hsid) as (rm0 & Hrm0 & Hin).
    destruct (decide (r = a)) as [->|Hne].
    + rewrite lookup_insert_eq. exists rm'. split; [done|].
      apply Hkeys. congruence.
    + rewrite lookup_insert_ne by done. eauto.
Qed.

Lemma wf_room_round (t : string) (rm : room) (gq : list song) (gi : nat)
    (sg : song) (ci : Z) :
  id rm = t → NoDup (obj_keys (players rm)) →
  (∃ h, hostId rm = Some h ∧ h ∈ obj_keys (players rm)) →
  gq ⊆+ songs → length gq ≤ 10 → gq !! gi = Some sg → (0 ≤ ci < 4)%Z →
  wf_room songs t
    {| id := id rm; hostId := hostId rm; players := players rm;
       gameQuestions := gq; gameIndex := S gi;
       currentQuestion :=
         Some {| q_title := title sg; q_audioUrl := audioUrl sg;
                 correctIndex := ci; winnerSocketId := None |};
       roundActive := true |}.
Proof.
  intros Hid Hnd Hhost Hsub Hlen Hsg Hci. unfold wf_room. simpl.
  split_and!; try done.
  - by apply lookup_lt_Some in Hsg.
  - intros q [= <-]. exists sg. simpl. rewrite Nat.sub_0_r.
    split_and!; try done; lia.
Qed.

Lemma startNextRound_wf (roomId : string) (st : state) :
  wf songs st → wf songs (startNextRound songs roomId st).1.
Proof.
  intros Hwf. unfold startNextRound.
  destruct (rooms st !! roomId) as [rm|] eqn:Hr; [|done].
  destruct (decide (length (gameQuestions rm) ≤ gameIndex rm)); [done|].
  destruct (gameQuestions rm !! gameIndex rm) as [sg|] eqn:Hsg; [|done].
  pose proof (generateOptions_key (title sg) (rng st)) as (Hci & _).
  destruct (generateOptions songs (title sg) (rng st)) as [[options ci] r'].
  simpl in Hci. simpl.
  destruct (proj1 Hwf roomId rm Hr) as (Hid & Hnd & Hhost & _ & Hsub & Hlen & _).
  apply (wf_update st roomId rm); [done|done| |done].
  by apply wf_room_round.
Qed.

Lemma on_timer_wf (st : state) : wf songs st → wf songs (on_timer songs st).1.
Proof.
  intros Hwf. unfold on_timer. destruct (timers st) as [|roomId ts]; [done|].
  by apply startNextRound_wf.
Qed.

Lemma on_startGame_wf (sid : string) (st : state) :
  wf songs st → wf songs (on_startGame songs sid st).1.
Proof.
  intros Hwf. unfold on_startGame.
  destruct (sockets st !! sid) as [roomId|]; [|done].
  destruct (rooms st !! roomId) as [rm|] eqn:Hr; [|done].
  destruct (decide (hostId rm = Some sid)); [|done].
  pose proof (shuffle_perm songs (rng st)) as Hp.
  destruct (shuffle songs (rng st)) as [shuffled r]. simpl in Hp.
  destruct (proj1 Hwf roomId rm Hr)
    as (Hid & Hnd & Hhost & _ & Hsub & _ & Hq).
  assert (Hgq : take 10 shuffled ⊆+ songs).
  { rewrite <-Hp. apply submseteq_take. }
  assert (Hlen : length (take 10 shuffled) ≤ 10).
  { rewrite length_take. lia. }
  unfold startNextRound. simpl. rewrite lookup_insert_eq. simpl.
  destruct (decide (length (take 10 shuffled) ≤ 0)) as [Hle|Hlt]; simpl.
  - apply (wf_update st roomId rm); [done|done| |done].
    unfold wf_room. simpl. split_and!; try done; [lia|].
    intros q Hcq. exfalso.
    destruct (Hq q Hcq) as (sg & _ & Hsg & _).
    apply lookup_lt_Some in Hsg. apply submseteq_length in Hsub.
    rewrite length_take, Hp in Hle. lia.
  - destruct (take 10 shuffled !! 0) as [sg|] eqn:Hsg.
    2:{ apply lookup_ge_None in Hsg. lia. }
    pose proof (generateOptions_key (title sg) r) as (Hci & _).
    destruct (generateOptions songs (title sg) r) as [[options ci] r'].
    simpl in Hci. simpl. rewrite insert_insert_eq.
    apply (wf_update st roomId rm); [done|done| |done].
    by apply (wf_room_round roomId rm (take 10 shuffled) 0 sg ci).
Qed.

Lemma on_answer_wf (sid : string) (k : Z) (st : state) :
  wf songs st → wf songs (on_answer sid k st).1.
Proof.
  intros Hwf. unfold on_answer.
  destruct (sockets st !! sid) as [roomId|]; [|done].
  destruct (rooms st !! roomId) as [rm|] eqn:Hr; [|done].
  destruct (roundActive rm); [|done]. simpl.
  destruct (currentQuestion rm) as [q|] eqn:Hcq; [|done].
  destruct (obj_get sid (players rm)) as [p|] eqn:Hp; [|done].
  destruct (truthy (winnerSocketId q)); [done|].
  destruct (k =? correctIndex q)%Z; [|done]. simpl.
  destruct (proj1 Hwf roomId rm Hr)
    as (Hid & Hnd & Hhost & Hgi & Hsub & Hlen & Hq).
  assert (Hin : sid ∈ obj_keys (players rm)).
  { apply obj_get_keys. by rewrite Hp. }
  apply (wf_update st roomId rm); [done|done| |].
  - unfold wf_room. simpl. rewrite obj_keys_set_in by done.
    split_and!; try done.
    intros q' [= <-]. simpl. by apply Hq.
  - simpl. intros k'. by rewrite obj_keys_set_in.
Qed.

Lemma on_joinRoom_wf (sid roomId nm : string) (st : state) :
  wf songs st → wf songs (on_joinRoom sid roomId nm st).1.
Proof.
  intros [Hrooms Hsocks]. unfold on_joinRoom, getOrCreateRoom.
  set (p := {| name := nm; score := 0 |}).
  assert (Hnew : ∀ rm m,
            wf_room songs roomId rm ∨ rm = newRoom roomId →
            (∀ t, t ≠ roomId → m !! t = rooms st !! t) →
            (∀ rm0, rooms st !! roomId = Some rm0 → rm0 = rm) →
            wf songs
              {| rooms :=
                   <[roomId :=
                      {| id := id rm;
                         hostId := if truthy (hostId rm) then hostId rm
                                   else Some sid;
                         players := obj_set sid p (players rm);
                         gameQuestions := gameQuestions rm;
                         gameIndex := gameIndex rm;
                         currentQuestion := currentQuestion rm;
                         roundActive := roundActive rm |}]> m;
                 sockets := <[sid := roomId]> (sockets st);
                 timers := timers st; rng := rng st |}).
  { intros rm m Hrm Hm Hold. split; simpl.
    - intros t rm'. destruct (decide (t = roomId)) as [->|Hne].
      + rewrite lookup_insert_eq. intros [= <-].
        unfold wf_room. simpl.
        destruct Hrm as [(Hid & Hnd & Hhost & Hgi & Hsub & Hlen & Hq)| ->].
        * split_and!; try done.
          -- by apply obj_keys_set_NoDup.
          -- destruct Hhost as (h & Hh & Hin). rewrite Hh.
             destruct (truthy (Some h)); eexists; (split; [done|]);
               apply obj_keys_set_elem; auto.
        * simpl. split_and!; try done.
          -- apply NoDup_singleton.
          -- exists sid. split; [done|]. by left.
          -- apply submseteq_nil_l.
          -- lia.
      + rewrite lookup_insert_ne, Hm by done. apply Hrooms.
    - intros sid' r. destruct (decide (sid' = sid)) as [->|Hne].
      + rewrite lookup_insert_eq. intros [= <-].
        rewrite lookup_insert_eq. eexists. split; [done|]. simpl.
        apply obj_keys_set_elem. by left.
      + rewrite lookup_insert_ne by done. intros Hs.
        destruct (Hsocks sid' r Hs) as (rm0 & Hrm0 & Hin).
        destruct (decide (r = roomId)) as [->|Hr].
        * rewrite lookup_insert_eq. eexists. split; [done|]. simpl.
          apply obj_keys_set_elem. right. by rewrite <-(Hold rm0 Hrm0).
        * rewrite lookup_insert_ne, Hm by done. eauto. }
  destruct (rooms st !! roomId) as [rm|] eqn:Hr.
  - apply Hnew; [left; by apply Hrooms|done|by intros ? [= <-]].
  - apply Hnew; [by right| |done].
    intros t Ht. by rewrite lookup_insert_ne.
Qed.

Lemma on_disconnect_wf (sid : string) (st : state) :
  wf songs st → wf songs (on_disconnect sid st).1.
Proof.
  intros [Hrooms Hsocks]. unfold on_disconnect.
  destruct (sockets st !! sid) as [roomId|] eqn:Hs; [|done].
  destruct (rooms st !! roomId) as [rm|] eqn:Hr.
  2:{ split; simpl; [done|]. intros sid' r Hs'.
      apply lookup_delete_Some in Hs' as [_ Hs']. eauto. }
  destruct (Hrooms roomId rm Hr)
    as (Hid & Hnd & Hhost & Hgi & Hsub & Hlen & Hq).
  set (ps := obj_delete sid (players rm)).
  assert (Hkeep : ∀ k, k ≠ sid → k ∈ obj_keys (players rm) →
                    k ∈ obj_keys ps).
  { intros k Hk Hin. unfold ps. rewrite obj_keys_delete.
    by apply list_elem_of_filter. }
  destruct (decide (length (obj_keys ps) = 0)) as [Hempty|Hsome]; simpl.
  - split; simpl.
    + intros t rm0 Ht. apply lookup_delete_Some in Ht as [_ Ht]. eauto.
    + intros sid' r Hs'. apply lookup_delete_Some in Hs' as [Hne Hs'].
      destruct (Hsocks sid' r Hs') as (rm0 & Hrm0 & Hin).
      destruct (decide (r = roomId)) as [->|Hrne].
      * exfalso. rewrite Hr in Hrm0. injection Hrm0 as <-.
        apply (Hkeep sid') in Hin; [|done].
        apply length_zero_iff_nil in Hempty. rewrite Hempty in Hin.
        by apply elem_of_nil in Hin.
      * rewrite lookup_delete_ne by done. eauto.
  - split; simpl.
    + intros t rm0. destruct (decide (t = roomId)) as [->|Hne].
      * rewrite lookup_insert_eq. intros [= <-]. unfold wf_room. simpl.
        fold ps. split_and!; try done.
        -- unfold ps. rewrite obj_keys_delete. by apply NoDup_filter.
        -- destruct Hhost as (h & Hh & Hin).
           destruct (decide (hostId rm = Some sid)) as [Heq|Hneq].
           ++ destruct (obj_keys ps) as [|k ks] eqn:Hks; [done|].
              exists k. split; [done|]. by left.
           ++ exists h. split; [done|]. apply Hkeep; [congruence|done].
      * rewrite lookup_insert_ne by done. apply Hrooms.
    + intros sid' r Hs'. apply lookup_delete_Some in Hs' as [Hne Hs'].
      destruct (Hsocks sid' r Hs') as (rm0 & Hrm0 & Hin).
      destruct (decide (r = roomId)) as [->|Hrne].
      * rewrite lookup_insert_eq. eexists. split; [done|]. simpl.
        rewrite Hr in Hrm0. injection Hrm0 as <-. by apply Hkeep.
      * rewrite lookup_insert_ne by done. eauto.
Qed.

Lemma step_wf (i : input) (st : state) :
  wf songs st → wf songs (step songs i st).1.
Proof.
  destruct i; simpl.
  - apply on_joinRoom_wf.
  - apply on_startGame_wf.
  - apply on_answer_wf.
  - apply on_disconnect_wf.
  - apply on_timer_wf.
Qed.

Lemma run_wf (ins : list input) (st : state) :
  wf songs st → wf songs (run songs ins st).1.
Proof.
  revert st. induction ins as [|i ins IH]; intros st Hwf; [done|].
  simpl. pose proof (step_wf i st Hwf) as Hwf1.
  destruct (step songs i st) as [st1 out1]. simpl in Hwf1.
  specialize (IH st1 Hwf1). by destruct (run songs ins st1).
Qed.

Lemma reachable_wf (r : list nat) (ins : list input) :
  wf songs (run songs ins (boot r)).1.
Proof. apply run_wf, wf_boot. Qed.

(** X6.  In every state reached from start-up, a room of the registry
    is stored under its own id, has at least one player, no player twice,
    and a host who is one of its players. *)
Theorem registry_rooms_have_host (r : list nat) (ins : list input)
    (t : string) (rm : room) :
  rooms (run songs ins (boot r)).1 !! t = Some rm →
  id rm = t ∧ players rm ≠ [] ∧ NoDup (obj_keys (players rm)) ∧
  ∃ h p, hostId rm = Some h ∧ obj_get h (players rm) = Some p.
Proof.
  intros Hrm.
  destruct (proj1 (reachable_wf r ins) t rm Hrm)
    as (Hid & Hnd & (h & Hh & Hin) & _).
  apply obj_get_keys in Hin as Hp. destruct Hp as [p Hp].
  split_and!; [done| |done|by exists h, p].
  intros Hnil. rewrite Hnil in Hp. done.
Qed.

(** X7.  In every state reached from start-up, the room a connection
    has joined last exists and lists the connection among its players:
    neither the missing-room guard (for a connection that has joined) nor
    the unknown-player guard of the answer handler is ever taken. *)
Theorem joined_connection_is_player (r : list nat) (ins : list input)
    (sid roomId : string) :
  sockets (run songs ins (boot r)).1 !! sid = Some roomId →
  ∃ rm p, rooms (run songs ins (boot r)).1 !! roomId = Some rm ∧
    obj_get sid (players rm) = Some p.
Proof.
  intros Hs.
  destruct (proj2 (reachable_wf r ins) sid roomId Hs) as (rm & Hrm & Hin).
  apply obj_get_keys in Hin as [p Hp]. by exists rm, p.
Qed.

(** X8.  In every state reached from start-up, the cursor of a room is
    within its question list, the list has at most 10 questions and no
    more than the bank has songs, and its questions are songs of the bank,
    none drawn more often than the bank holds it: distinct when the songs
    of the bank are distinct. *)
Theorem game_cursor_in_bounds (r : list nat) (ins : list input)
    (t : string) (rm : room) :
  rooms (run songs ins (boot r)).1 !! t = Some rm →
  gameIndex rm ≤ length (gameQuestions rm) ∧
  length (gameQuestions rm) ≤ 10 ∧
  length (gameQuestions rm) ≤ length songs ∧
  gameQuestions rm ⊆+ songs ∧
  (NoDup songs → NoDup (gameQuestions rm)).
Proof.
  intros Hrm.
  destruct (proj1 (reachable_wf r ins) t rm Hrm)
    as (_ & _ & _ & Hgi & Hsub & Hlen & _).
  split_and!; try done.
  - by apply submseteq_length.
  - intros Hnd. apply submseteq_Permutation in Hsub as [k Hk].
    rewrite Hk in Hnd. by apply NoDup_app in Hnd as [? _].
Qed.

(** X9.  In every state reached from start-up, the current question of
    a room is the one of the song just before the cursor: same title and
    URL, a song of the bank, with a correct index between 0 and 3. *)
Theorem current_question_is_last_drawn (r : list nat) (ins : list input)
    (t : string) (rm : room) (q : question) :
  rooms (run songs ins (boot r)).1 !! t = Some rm →
  currentQuestion rm = Some q →
  ∃ sg, 0 < gameIndex rm ∧
    gameQuestions rm !! (gameIndex rm - 1) = Some sg ∧ sg ∈ songs ∧
    q_title q = title sg ∧ q_audioUrl q = audioUrl sg ∧
    (0 ≤ correctIndex q < 4)%Z.
Proof.
  intros Hrm Hq.
  destruct (proj1 (reachable_wf r ins) t rm Hrm)
    as (_ & _ & _ & _ & Hsub & _ & Hqok).
  destruct (Hqok q Hq) as (sg & Hpos & Hsg & Ht & Hu & Hci).
  exists sg. split_and!; try done; try lia.
  eapply elem_of_submseteq; [|exact Hsub].
  apply list_elem_of_lookup. eauto.
Qed.

Lemma startNextRound_timers (roomId : string) (st : state) :
  timers (startNextRound songs roomId st).1 = timers st ∧
  won_rooms (startNextRound songs roomId st).2 = [].
Proof.
  unfold startNextRound.
  destruct (rooms st !! roomId) as [rm|]; [|done].
  destruct (decide (length (gameQuestions rm) ≤ gameIndex rm)); [done|].
  destruct (gameQuestions rm !! gameIndex rm) as [sg|]; [|done].
  by destruct (generateOptions songs (title sg) (rng st)) as [[options ci] r'].
Qed.

Lemma step_timers (i : input) (st : state) :
  (timers (step songs i st).1 = timers st ∧
   won_rooms (step songs i st).2 = []) ∨
  (∃ a, timers (step songs i st).1 = timers st ++ [a] ∧
        won_rooms (step songs i st).2 = [a]) ∨
  (∃ a, timers st = a :: timers (step songs i st).1 ∧
        won_rooms (step songs i st).2 = []).
Proof.
  destruct i as [sid roomId nm|sid|sid k|sid|]; simpl.
  - left. unfold on_joinRoom.
    by destruct (getOrCreateRoom roomId (rooms st)).
  - left. unfold on_startGame.
    destruct (sockets st !! sid) as [roomId|]; [|done].
    destruct (rooms st !! roomId) as [rm|]; [|done].
    destruct (decide (hostId rm = Some sid)); [|done].
    destruct (shuffle songs (rng st)) as [shuffled r].
    match goal with
    | |- context [startNextRound songs roomId ?s] =>
        pose proof (startNextRound_timers roomId s) as [Ht Hw];
        destruct (startNextRound songs roomId s) as [st2 out]
    end.
    simpl in *. done.
  - unfold on_answer.
    destruct (sockets st !! sid) as [roomId|]; [|by left].
    destruct (rooms st !! roomId) as [rm|]; [|by left].
    destruct (roundActive rm); [|by left]. simpl.
    destruct (currentQuestion rm) as [q|]; [|by left].
    destruct (obj_get sid (players rm)) as [p|]; [|by left].
    destruct (truthy (winnerSocketId q)); [by left|].
    destruct (k =? correctIndex q)%Z; [|by left].
    right. left. by exists roomId.
  - left. unfold on_disconnect.
    destruct (sockets st !! sid) as [roomId|]; [|done].
    destruct (rooms st !! roomId) as [rm|]; [|done].
    by destruct (decide (length (obj_keys (obj_delete sid (players rm))) = 0)).
  - unfold on_timer. destruct (timers st) as [|roomId ts] eqn:Hts.
    { left. simpl. by rewrite Hts. }
    right. right. exists roomId.
    match goal with
    | |- context [startNextRound songs roomId ?s] =>
        destruct (startNextRound_timers roomId s) as [-> ->]
    end.
    done.
Qed.

Lemma step_fired (i : input) (st : state) :
  fired_by i st ++ timers (step songs i st).1 =
  timers st ++ won_rooms (step songs i st).2.
Proof.
  destruct i as [sid roomId nm|sid|sid k|sid|]; simpl.
  - unfold on_joinRoom. destruct (getOrCreateRoom roomId (rooms st)).
    simpl. by rewrite app_nil_r.
  - unfold on_startGame.
    destruct (sockets st !! sid) as [roomId|]; [|by rewrite app_nil_r].
    destruct (rooms st !! roomId) as [rm|]; [|by rewrite app_nil_r].
    destruct (decide (hostId rm = Some sid)); [|by rewrite app_nil_r].
    destruct (shuffle songs (rng st)) as [shuffled r].
    match goal with
    | |- context [startNextRound songs roomId ?s] =>
        pose proof (startNextRound_timers roomId s) as [Ht Hw];
        destruct (startNextRound songs roomId s) as [st2 out]
    end.
    simpl in *. unfold won_rooms in *. simpl. rewrite Ht, Hw.
    by rewrite app_nil_r.
  - unfold on_answer.
    destruct (sockets st !! sid) as [roomId|]; [|by rewrite app_nil_r].
    destruct (rooms st !! roomId) as [rm|]; [|by rewrite app_nil_r].
    destruct (roundActive rm); [|by rewrite app_nil_r]. simpl.
    destruct (currentQuestion rm) as [q|]; [|by rewrite app_nil_r].
    destruct (obj_get sid (players rm)) as [p|]; [|by rewrite app_nil_r].
    destruct (truthy (winnerSocketId q)); [by rewrite app_nil_r|].
    destruct (k =? correctIndex q)%Z; [done|by rewrite app_nil_r].
  - unfold on_disconnect.
    destruct (sockets st !! sid) as [roomId|]; [|by rewrite app_nil_r].
    destruct (rooms st !! roomId) as [rm|]; [|by rewrite app_nil_r].
    destruct (decide (length (obj_keys (obj_delete sid (players rm))) = 0));
      simpl; by rewrite app_nil_r.
  - unfold on_timer, fired_by. destruct (timers st) as [|roomId ts] eqn:Hts.
    { simpl. by rewrite Hts. }
    match goal with
    | |- context [startNextRound songs roomId ?s] =>
        destruct (startNextRound_timers roomId s) as [-> ->]
    end.
    simpl. by rewrite app_nil_r.
Qed.

(** X10.  After any run from start-up, the rooms of the [roundResult]
    events broadcast so far are, in order, the rooms of the timers that
    have fired during the run followed by the rooms of the timers still
    pending: every won round sets one timer for its room, nothing else
    sets one, and a timer leaves the queue only by firing. *)
Theorem pending_timers_follow_wins (r : list nat) (ins : list input) :
  won_rooms (run songs ins (boot r)).2 =
  fired_timers songs ins (boot r) ++ timers (run songs ins (boot r)).1.
Proof.
  assert (Hgen : ∀ ins st,
            fired_timers songs ins st ++ timers (run songs ins st).1 =
            timers st ++ won_rooms (run songs ins st).2).
  { clear ins. induction ins as [|i ins IH]; intros st.
    - simpl. by rewrite app_nil_r.
    - simpl. pose proof (step_fired i st) as Hstep.
      specialize (IH (step songs i st).1).
      destruct (step songs i st) as [st1 out1]. simpl in *.
      destruct (run songs ins st1) as [st2 out2]. simpl in *.
      unfold won_rooms in *. rewrite omap_app.
      rewrite <-(assoc_L (++)), IH, !(assoc_L (++)), Hstep. done. }
  by rewrite Hgen.
Qed.

(** X11.  A [startGame] by the host of its room draws [min 10 (length
    songs)] questions from the bank, keeps the players with their scores
    and the host, and sets no timer.  With an empty bank it announces a
    game of 0 questions and ends it at once, starting no round; otherwise
    it announces the game and sends the first question, numbered 1, for
    the first song drawn, and the round is open with no winner. *)
Theorem startGame_by_host (st : state) (sid roomId : string) (rm : room) :
  sockets st !! sid = Some roomId →
  rooms st !! roomId = Some rm →
  hostId rm = Some sid →
  let st' := (on_startGame songs sid st).1 in
  let out := (on_startGame songs sid st).2 in
  let n := min 10 (length songs) in
  timers st' = timers st ∧
  ∃ rm', rooms st' !! roomId = Some rm' ∧
    players rm' = players rm ∧ hostId rm' = hostId rm ∧
    gameQuestions rm' ⊆+ songs ∧ length (gameQuestions rm') = n ∧
    (songs = [] →
       gameIndex rm' = 0 ∧ currentQuestion rm' = currentQuestion rm ∧
       roundActive rm' = roundActive rm ∧
       out = [Emit roomId (gameStart 0);
              Emit roomId (gameEnd (players rm))]) ∧
    (songs ≠ [] →
       ∃ sg o q,
         gameQuestions rm' !! 0 = Some sg ∧ gameIndex rm' = 1 ∧
         roundActive rm' = true ∧ currentQuestion rm' = Some q ∧
         q_title q = title sg ∧ winnerSocketId q = None ∧
         out = [Emit roomId (gameStart n);
                Emit roomId (questionEv (audioUrl sg) o 1 n)]).
Proof.
  intros Hs Hr Hh st' out n. subst st' out n. unfold on_startGame.
  rewrite Hs, Hr. rewrite decide_True by done.
  pose proof (shuffle_perm songs (rng st)) as Hp.
  destruct (shuffle songs (rng st)) as [shuffled r]. simpl in Hp.
  assert (Hlen : length (take 10 shuffled) = min 10 (length songs)).
  { by rewrite length_take, Hp. }
  assert (Hsub : take 10 shuffled ⊆+ songs).
  { rewrite <-Hp. apply submseteq_take. }
  unfold startNextRound. simpl. rewrite lookup_insert_eq. simpl.
  destruct (decide (length (take 10 shuffled) ≤ 0)) as [Hle|Hlt]; simpl.
  - split; [done|]. rewrite lookup_insert_eq. eexists. split; [done|].
    simpl. split_and!; try done.
    + intros _. split_and!; try done.
      replace (length (take 10 shuffled)) with 0 by lia. done.
    + intros Hne. destruct songs; [done|]. simpl in *. lia.
  - destruct (take 10 shuffled !! 0) as [sg|] eqn:Hsg.
    2:{ apply lookup_ge_None in Hsg. lia. }
    destruct (generateOptions songs (title sg) r) as [[options ci] r'].
    simpl. split; [done|]. rewrite lookup_insert_eq. eexists.
    split; [done|]. simpl. split_and!; try done.
    + intros ->. simpl in *. lia.
    + intros _. do 3 eexists. split_and!; try done. by rewrite Hlen.
Qed.

(** X12.  While a round is open and has no winner, an answer of a player
    of the room with another index than the correct one changes nothing
    and is answered by [answerResult false] alone.  The correct index
    records the sender as winner, closes the round, adds one point to the
    sender and to no one else, keeps the order of the players, the host
    and the cursor, sets one timer for the room, and is answered by
    [answerResult true] followed by a [roundResult] that carries the new
    score and the new players; other rooms are not touched. *)
Theorem answer_outcome (st : state) (sid roomId : string) (k : Z)
    (rm : room) (q : question) (p : player) :
  sockets st !! sid = Some roomId →
  rooms st !! roomId = Some rm →
  roundActive rm = true →
  currentQuestion rm = Some q →
  winnerSocketId q = None →
  obj_get sid (players rm) = Some p →
  let st' := (on_answer sid k st).1 in
  let out := (on_answer sid k st).2 in
  (k ≠ correctIndex q →
     st' = st ∧ out = [Emit sid (answerResult false)]) ∧
  (k = correctIndex q →
     ∃ rm', rooms st' !! roomId = Some rm' ∧
       obj_get sid (players rm') =
         Some {| name := name p; score := score p + 1 |} ∧
       (∀ s, s ≠ sid → obj_get s (players rm') = obj_get s (players rm)) ∧
       obj_keys (players rm') = obj_keys (players rm) ∧
       hostId rm' = hostId rm ∧ gameIndex rm' = gameIndex rm ∧
       gameQuestions rm' = gameQuestions rm ∧
       roundActive rm' = false ∧
       (∃ q', currentQuestion rm' = Some q' ∧
          winnerSocketId q' = Some sid ∧ q_title q' = q_title q ∧
          correctIndex q' = correctIndex q) ∧
       timers st' = timers st ++ [roomId] ∧
       (∀ t, t ≠ roomId → rooms st' !! t = rooms st !! t) ∧
       out = [Emit sid (answerResult true);
              Emit roomId
                (roundResult (correctIndex q) (sid, name p, score p + 1)
                   (players rm'))]).
Proof.
  intros Hs Hr Hact Hq Hw Hp st' out. subst st' out. unfold on_answer.
  rewrite Hs, Hr, Hact. simpl. rewrite Hq, Hp, Hw. simpl. split.
  - intros Hne. apply Z.eqb_neq in Hne. by rewrite Hne.
  - intros ->. rewrite Z.eqb_refl. simpl. rewrite lookup_insert_eq.
    eexists. split; [done|]. simpl. split_and!; try done.
    + apply obj_get_set_eq.
    + intros s Hne. by apply obj_get_set_ne.
    + apply obj_keys_set_in, obj_get_keys. by rewrite Hp.
    + by eexists.
    + intros t Ht. by rewrite lookup_insert_ne.
Qed.

Lemma room_step_stays_closed (a : string) o o' (out : list emit) :
  room_step a o o' out →
  (∀ rm, o = Some rm → roundActive rm = false) →
  (∀ e, e ∈ out → ¬ is_question_to a e) →
  ∀ rm', o' = Some rm' → roundActive rm' = false.
Proof.
  intros Hstep Hclosed Hno.
  destruct Hstep as
    [ o | rm0 sid b Hact | rm0 Hle | o rm1 Hsame | rm0 rm1 Hsame | rm0
    | rm0 rm1 q0 sid w Hact Hq0 Hw Hq1 Hact1 Hgq Hgi
    | rm0 rm1 u ops Hlt Hgi Hgq Hfresh
    | rm0 rm1 u ops Hgi Hfresh
    | rm0 rm1 Hgi Hle Hcq Hact ]; intros rm' Hrm'; simplify_eq.
  - by apply Hclosed.
  - by apply Hclosed.
  - by apply Hclosed.
  - destruct Hsame as (_ & _ & _ & ->).
    destruct o as [rm|]; simpl; [by apply Hclosed|done].
  - destruct Hsame as (_ & _ & _ & ->). by apply Hclosed.
  - done.
  - destruct (Hno _ ltac:(by left)). by repeat eexists.
  - destruct (Hno _ ltac:(right; by left)). by repeat eexists.
  - rewrite Hact. by apply Hclosed.
Qed.

(** X13.  Once an answer has won a round, every later answer from a
    connection of that room is dropped without a reply and without any
    change of state, whatever the index and whoever sends it, for as long
    as no [question] is sent to the room, whatever else happens in between:
    the second of two correct answers gets neither a point nor an
    [answerResult]. *)
Theorem answers_after_win_dropped (st : state) (sid sid' t : string)
    (k k' c : Z) (w : string * string * nat) (ps : list (string * player))
    (ins : list input) :
  let st1 := (on_answer sid k st).1 in
  let st2 := (run songs ins st1).1 in
  Emit t (roundResult c w ps) ∈ (on_answer sid k st).2 →
  (∀ e, e ∈ (run songs ins st1).2 → ¬ is_question_to t e) →
  sockets st2 !! sid' = Some t →
  on_answer sid' k' st2 = (st2, []).
Proof.
  intros st1 st2 Hin Hno Hs.
  assert (Hwin : ∀ rm, rooms st1 !! t = Some rm → roundActive rm = false).
  { subst st1. clear Hno Hs st2. revert Hin. unfold on_answer.
    destruct (sockets st !! sid) as [roomId|]; [|by intros Hin%elem_of_nil].
    destruct (rooms st !! roomId) as [rm|]; [|by intros Hin%elem_of_nil].
    destruct (roundActive rm); [|by intros Hin%elem_of_nil]. simpl.
    destruct (currentQuestion rm) as [q|]; [|by intros Hin%elem_of_nil].
    destruct (obj_get sid (players rm)) as [p|];
      [|by intros Hin%elem_of_nil].
    destruct (truthy (winnerSocketId q));
      [simpl; intros Hin; pick_event; simplify_eq|].
    destruct (k =? correctIndex q)%Z;
      [|simpl; intros Hin; pick_event; simplify_eq].
    simpl. intros Hin. pick_event; simplify_eq.
    rewrite lookup_insert_eq. by intros ? [= <-]. }
  assert (Hrun : ∀ ins s,
            (∀ rm, rooms s !! t = Some rm → roundActive rm = false) →
            (∀ e, e ∈ (run songs ins s).2 → ¬ is_question_to t e) →
            ∀ rm, rooms (run songs ins s).1 !! t = Some rm →
                  roundActive rm = false).
  { clear. induction ins as [|i ins IH]; intros s Hclosed Hno; [done|].
    simpl in *. destruct (step_room songs i s) as (a & Hframe & Hstep).
    destruct (step songs i s) as [s1 out1]. simpl in *.
    specialize (IH s1). destruct (run songs ins s1) as [s2 out2].
    simpl in *. apply IH.
    - destruct (decide (t = a)) as [->|Hne].
      + eapply room_step_stays_closed; [exact Hstep|done|].
        intros e He. apply Hno, elem_of_app. by left.
      + by rewrite Hframe.
    - intros e He. apply Hno, elem_of_app. by right. }
  unfold on_answer. rewrite Hs.
  destruct (rooms st2 !! t) as [rm|] eqn:Hrm; [|done].
  by rewrite (Hrun ins st1 Hwin Hno rm Hrm).
Qed.

Lemma startNextRound_question_key (roomId : string) (st : state)
    (t u : string) (o : list string) (i n : nat) :
  Emit t (questionEv u o i n) ∈ (startNextRound songs roomId st).2 →
  ∃ rm' q, rooms (startNextRound songs roomId st).1 !! t = Some rm' ∧
    currentQuestion rm' = Some q ∧ q_audioUrl q = u ∧
    winnerSocketId q = None ∧ roundActive rm' = true ∧
    gameIndex rm' = i ∧ length (gameQuestions rm') = n ∧
    length o ≤ 4 ∧
    ∀ k, o !! k = Some (q_title q) ↔ Z.of_nat k = correctIndex q.
Proof.
  unfold startNextRound.
  destruct (rooms st !! roomId) as [rm|]; [|by intros Hin%elem_of_nil].
  destruct (decide (length (gameQuestions rm) ≤ gameIndex rm)).
  { simpl. intros Hin. pick_event. simplify_eq. }
  destruct (gameQuestions rm !! gameIndex rm) as [sg|];
    [|by intros Hin%elem_of_nil].
  pose proof (generateOptions_key (title sg) (rng st)) as (_ & Hlen & Hkey).
  destruct (generateOptions songs (title sg) (rng st)) as [[options ci] r'].
  simpl in *. intros Hin. pick_event. simplify_eq.
  rewrite lookup_insert_eq. do 2 eexists. split; [done|]. simpl.
  split_and!; done.
Qed.

Lemma step_question_key (inp : input) (st : state)
    (t u : string) (o : list string) (i n : nat) :
  Emit t (questionEv u o i n) ∈ (step songs inp st).2 →
  ∃ rm' q, rooms (step songs inp st).1 !! t = Some rm' ∧
    currentQuestion rm' = Some q ∧ q_audioUrl q = u ∧
    winnerSocketId q = None ∧ roundActive rm' = true ∧
    gameIndex rm' = i ∧ length (gameQuestions rm') = n ∧
    length o ≤ 4 ∧
    ∀ k, o !! k = Some (q_title q) ↔ Z.of_nat k = correctIndex q.
Proof.
  destruct inp as [sid roomId nm|sid|sid k|sid|]; simpl.
  - unfold on_joinRoom. destruct (getOrCreateRoom roomId (rooms st)).
    simpl. intros Hin. pick_event. simplify_eq.
  - unfold on_startGame.
    destruct (sockets st !! sid) as [roomId|]; [|by intros Hin%elem_of_nil].
    destruct (rooms st !! roomId) as [rm|]; [|by intros Hin%elem_of_nil].
    destruct (decide (hostId rm = Some sid)); [|by intros Hin%elem_of_nil].
    destruct (shuffle songs (rng st)) as [shuffled r].
    match goal with
    | |- context [startNextRound songs roomId ?s] =>
        pose proof (startNextRound_question_key roomId s t u o i n) as Hk;
        destruct (startNextRound songs roomId s) as [st2 out]
    end.
    simpl in *. intros Hin.
    apply elem_of_cons in Hin as [Hin|Hin]; [simplify_eq|]. by apply Hk.
  - unfold on_answer.
    destruct (sockets st !! sid) as [roomId|]; [|by intros Hin%elem_of_nil].
    destruct (rooms st !! roomId) as [rm|]; [|by intros Hin%elem_of_nil].
    destruct (roundActive rm); [|by intros Hin%elem_of_nil]. simpl.
    destruct (currentQuestion rm) as [q|]; [|by intros Hin%elem_of_nil].
    destruct (obj_get sid (players rm)) as [p|];
      [|by intros Hin%elem_of_nil].
    destruct (truthy (winnerSocketId q));
      [simpl; intros Hin; pick_event; simplify_eq|].
    destruct (k =? correctIndex q)%Z;
      simpl; intros Hin; pick_event; simplify_eq.
  - unfold on_disconnect.
    destruct (sockets st !! sid) as [roomId|]; [|by intros Hin%elem_of_nil].
    destruct (rooms st !! roomId) as [rm|]; [|by intros Hin%elem_of_nil].
    destruct (decide (length (obj_keys (obj_delete sid (players rm))) = 0));
      simpl; intros Hin; pick_event; simplify_eq.
  - unfold on_timer. destruct (timers st) as [|roomId ts];
      [by intros Hin%elem_of_nil|].
    apply startNextRound_question_key.
Qed.

Lemma run_events (P : emit → Prop) :
  (∀ i s, wf songs s → ∀ e, e ∈ (step songs i s).2 → P e) →
  ∀ ins st, wf songs st → ∀ e, e ∈ (run songs ins st).2 → P e.
Proof.
  intros Hstep. induction ins as [|i ins IH]; intros st Hwf e He.
  - by apply elem_of_nil in He.
  - simpl in He. pose proof (Hstep i st Hwf) as Hs.
    pose proof (step_wf i st Hwf) as Hwf1.
    destruct (step songs i st) as [st1 out1]. simpl in *.
    specialize (IH st1 Hwf1).
    destruct (run songs ins st1) as [st2 out2]. simpl in *.
    apply elem_of_app in He as [He|He]; [by apply Hs|by apply IH].
Qed.

Lemma step_question_song (inp : input) (st : state)
    (t u : string) (o : list string) (i n : nat) :
  wf songs st →
  Emit t (questionEv u o i n) ∈ (step songs inp st).2 →
  ∃ rm' q sg, rooms (step songs inp st).1 !! t = Some rm' ∧
    currentQuestion rm' = Some q ∧ winnerSocketId q = None ∧
    roundActive rm' = true ∧
    sg ∈ songs ∧ u = audioUrl sg ∧ q_title q = title sg ∧
    1 ≤ i ∧ i ≤ n ∧ n ≤ 10 ∧ n ≤ length songs ∧ length o ≤ 4 ∧
    (0 ≤ correctIndex q)%Z ∧
    ∀ k, o !! k = Some (title sg) ↔ Z.of_nat k = correctIndex q.
Proof.
  intros Hwf Hin.
  destruct (step_question_key inp st t u o i n Hin)
    as (rm' & q & Hrm' & Hq & Hu & Hw & Hact & Hi & Hn & Hlen & Hkey).
  destruct (proj1 (step_wf inp st Hwf) t rm' Hrm')
    as (_ & _ & _ & Hgi & Hsub & Hlen10 & Hqok).
  destruct (Hqok q Hq) as (sg & Hpos & Hsg & Ht & Hu' & Hci).
  exists rm', q, sg. rewrite <-Ht.
  pose proof (submseteq_length _ _ Hsub).
  split_and!; try done; try lia; try congruence.
  eapply elem_of_submseteq; [|exact Hsub].
  apply list_elem_of_lookup. eauto.
Qed.

(** X14.  Every [question] event of a run from start-up is numbered
    between 1 and its [total], which is at most 10 and at most the size of
    the bank; it offers at most 4 options, and its audio URL is the one of
    a song of the bank whose title is among the options. *)
Theorem question_event_bounds (r : list nat) (ins : list input)
    (t u : string) (o : list string) (i n : nat) :
  Emit t (questionEv u o i n) ∈ (run songs ins (boot r)).2 →
  1 ≤ i ∧ i ≤ n ∧ n ≤ 10 ∧ n ≤ length songs ∧ length o ≤ 4 ∧
  ∃ sg, sg ∈ songs ∧ u = audioUrl sg ∧ title sg ∈ o.
Proof.
  intros Hin.
  refine (run_events
            (λ e, ∀ t u o i n, e = Emit t (questionEv u o i n) →
               1 ≤ i ∧ i ≤ n ∧ n ≤ 10 ∧ n ≤ length songs ∧ length o ≤ 4 ∧
               ∃ sg, sg ∈ songs ∧ u = audioUrl sg ∧ title sg ∈ o)
            _ ins (boot r) (wf_boot r) _ Hin t u o i n eq_refl).
  clear. intros inp s Hwf e He t0 u0 o0 i0 n0 ->.
  destruct (step_question_song inp s t0 u0 o0 i0 n0 Hwf He)
    as (rm' & q & sg & _ & _ & _ & _ & Hsg & Hu & _ & ? & ? & ? & ? & ?
        & Hci & Hkey).
  split_and!; try done. exists sg. split_and!; try done.
  apply list_elem_of_lookup. exists (Z.to_nat (correctIndex q)).
  apply Hkey. lia.
Qed.

(** X15.  When a handler run in a state reached from start-up sends a
    [question], an answer that a connection of the room sends next is
    answered by an [answerResult] that is true exactly when the index is
    the position, among the options sent, of the title of the song whose
    audio URL was sent; a negative index is never correct. *)
Theorem answer_key (r : list nat) (ins : list input) (inp : input)
    (t u sid : string) (o : list string) (i n : nat) (z : Z) :
  let st := (run songs ins (boot r)).1 in
  let st' := (step songs inp st).1 in
  Emit t (questionEv u o i n) ∈ (step songs inp st).2 →
  sockets st' !! sid = Some t →
  ∃ sg b rest, sg ∈ songs ∧ u = audioUrl sg ∧
    (on_answer sid z st').2 = Emit sid (answerResult b) :: rest ∧
    (b = true ↔ (0 ≤ z)%Z ∧ o !! Z.to_nat z = Some (title sg)).
Proof.
  intros st st' Hin Hs.
  pose proof (reachable_wf r ins) as Hwf. fold st in Hwf.
  destruct (step_question_song inp st t u o i n Hwf Hin)
    as (rm' & q & sg & Hrm' & Hq & Hw & Hact & Hsg & Hu & _ & _ & _ & _ & _
        & _ & Hci & Hkey).
  fold st' in Hrm'.
  destruct (proj2 (step_wf inp st Hwf) sid t Hs) as (rm0 & Hrm0 & Hp).
  fold st' in Hrm0. rewrite Hrm' in Hrm0. injection Hrm0 as <-.
  apply obj_get_keys in Hp as [p Hp].
  exists sg, (z =? correctIndex q)%Z.
  assert (Hb : (z =? correctIndex q)%Z = true ↔
               (0 ≤ z)%Z ∧ o !! Z.to_nat z = Some (title sg)).
  { rewrite Z.eqb_eq, Hkey. split; [intros ->|intros [? ?]]; [|lia].
    split; [done|]. apply Z2Nat.id. done. }
  unfold on_answer. rewrite Hs, Hrm', Hact. simpl. rewrite Hq, Hp, Hw. simpl.
  destruct (z =? correctIndex q)%Z; eexists; by split_and!.
Qed.

(** X16.  [startNextRound] on a room with a question left at the cursor
    does not look at the round in progress: whether a round is open or not,
    it replaces the current question by the one of the song at the cursor,
    with no winner, opens the round, moves the cursor by one and sends one
    [question]; players, scores, host, question list, connections and
    timers stay as they are. *)
Theorem startNextRound_advances (st : state) (roomId : string) (rm : room)
    (sg : song) :
  rooms st !! roomId = Some rm →
  gameQuestions rm !! gameIndex rm = Some sg →
  let st' := (startNextRound songs roomId st).1 in
  let out := (startNextRound songs roomId st).2 in
  sockets st' = sockets st ∧ timers st' = timers st ∧
  (∀ t, t ≠ roomId → rooms st' !! t = rooms st !! t) ∧
  ∃ rm' q o, rooms st' !! roomId = Some rm' ∧
    players rm' = players rm ∧ hostId rm' = hostId rm ∧
    gameQuestions rm' = gameQuestions rm ∧
    gameIndex rm' = S (gameIndex rm) ∧ roundActive rm' = true ∧
    currentQuestion rm' = Some q ∧ q_title q = title sg ∧
    q_audioUrl q = audioUrl sg ∧ winnerSocketId q = None ∧
    out = [Emit roomId
             (questionEv (audioUrl sg) o (S (gameIndex rm))
                (length (gameQuestions rm)))].
Proof.
  intros Hr Hsg st' out. subst st' out. unfold startNextRound.
  rewrite Hr. pose proof (lookup_lt_Some _ _ _ Hsg) as Hlt.
  rewrite decide_False by lia. rewrite Hsg.
  destruct (generateOptions songs (title sg) (rng st)) as [[options ci] r'].
  simpl. split_and!; try done.
  - intros t Ht. by rewrite lookup_insert_ne.
  - rewrite lookup_insert_eq. do 3 eexists. by split_and!.
Qed.

(** X17.  A connection that joins a room while a round is open without
    winner can answer it: its correct answer, sent right after the join,
    wins the round with a score of 1. *)
Theorem late_joiner_can_win (st : state) (sid roomId nm : string)
    (rm : room) (q : question) :
  rooms st !! roomId = Some rm →
  roundActive rm = true →
  currentQuestion rm = Some q →
  winnerSocketId q = None →
  let st1 := (on_joinRoom sid roomId nm st).1 in
  ∃ ps, (on_answer sid (correctIndex q) st1).2 =
          [Emit sid (answerResult true);
           Emit roomId (roundResult (correctIndex q) (sid, nm, 1) ps)] ∧
    obj_get sid ps = Some {| name := nm; score := 1 |}.
Proof.
  intros Hr Hact Hq Hw st1. subst st1.
  unfold on_joinRoom, getOrCreateRoom. rewrite Hr. simpl.
  unfold on_answer. simpl. rewrite !lookup_insert_eq. simpl.
  rewrite Hact, Hq. simpl. rewrite obj_get_set_eq, Hw. simpl.
  rewrite Z.eqb_refl. simpl. eexists. split; [done|].
  apply obj_get_set_eq.
Qed.

(** X18.  When the host leaves and players remain, the new host is the
    first of the remaining players in the order of the players object. *)
Theorem host_goes_to_first_remaining (st : state) (sid roomId k : string)
    (rm : room) (ks : list string) :
  sockets st !! sid = Some roomId →
  rooms st !! roomId = Some rm →
  hostId rm = Some sid →
  filter (λ x, x ≠ sid) (obj_keys (players rm)) = k :: ks →
  ∃ rm', rooms (on_disconnect sid st).1 !! roomId = Some rm' ∧
    hostId rm' = Some k ∧ obj_keys (players rm') = k :: ks ∧
    (on_disconnect sid st).2 =
      [Emit roomId (roomState roomId (Some k) (players rm'))].
Proof.
  intros Hs Hr Hh Hks. unfold on_disconnect. rewrite Hs, Hr.
  rewrite obj_keys_delete, Hks. simpl.
  rewrite lookup_insert_eq. eexists. split; [done|]. simpl.
  rewrite decide_True by done. by rewrite obj_keys_delete, Hks.
Qed.

(** X19.  When the only player of a room leaves and a connection then
    joins under the same room id, it gets a new room: it is the host and
    the only player, with score 0, and nothing is left of the game of the
    old room. *)
Theorem last_leave_then_join_resets (st : state) (sid sid2 roomId nm : string)
    (rm : room) :
  sockets st !! sid = Some roomId →
  rooms st !! roomId = Some rm →
  obj_keys (players rm) = [sid] →
  let st1 := (on_disconnect sid st).1 in
  let st2 := (on_joinRoom sid2 roomId nm st1).1 in
  rooms st1 !! roomId = None ∧ (on_disconnect sid st).2 = [] ∧
  rooms st2 !! roomId =
    Some {| id := roomId; hostId := Some sid2;
            players := [(sid2, {| name := nm; score := 0 |})];
            gameQuestions := []; gameIndex := 0;
            currentQuestion := None; roundActive := false |}.
Proof.
  intros Hs Hr Hks st1 st2.
  assert (Hgone : rooms st1 !! roomId = None ∧ (on_disconnect sid st).2 = []).
  { subst st1. unfold on_disconnect. rewrite Hs, Hr.
    rewrite obj_keys_delete, Hks, filter_cons_False by (intros ?; done).
    simpl. by rewrite lookup_delete_eq. }
  destruct Hgone as [Hnone Hout]. split_and!; [done|done|].
  subst st2. unfold on_joinRoom, getOrCreateRoom. rewrite Hnone. simpl.
  by rewrite lookup_insert_eq.
Qed.

(** X20.  A timer left behind by a room that was destroyed is not
    cancelled: when a connection has joined under the same room id before
    it fires, the firing finds the new room, with no question list, and
    broadcasts [gameEnd] to it although no game was started there. *)
Theorem stale_timer_on_rejoined_room (st : state) (sid roomId nm : string)
    (ts : list string) :
  rooms st !! roomId = None →
  timers st = roomId :: ts →
  let st1 := (on_joinRoom sid roomId nm st).1 in
  (on_timer songs st1).2 =
    [Emit roomId (gameEnd [(sid, {| name := nm; score := 0 |})])] ∧
  rooms (on_timer songs st1).1 = rooms st1 ∧
  timers (on_timer songs st1).1 = ts.
Proof.
  intros Hr Hts st1. subst st1.
  unfold on_joinRoom, getOrCreateRoom. rewrite Hr. simpl.
  unfold on_timer. simpl. rewrite Hts. unfold startNextRound. simpl.
  rewrite lookup_insert_eq. simpl. done.
Qed.

End engine_facts.

(** ** The end of a game *)

Section game_end_facts.
Variable songs : list song.

Ltac pick_emit :=
  repeat match goal with
         | H : _ ∈ _ :: _ |- _ => apply elem_of_cons in H as [H|H]
         | H : _ ∈ [] |- _ => by apply elem_of_nil in H
         end.

Ltac quiet_out :=
  left; split; [done|right; split; [done|]];
  let e := fresh "e" in
  let He := fresh "He" in
  intros e He; simpl in He; pick_emit; subst;
  (split; [intros (?&?&?&?&?)|intros (?&?)]; simplify_eq).

Lemma startNextRound_no_start (roomId a : string) (st : state) (e : emit) :
  e ∈ (startNextRound songs roomId st).2 → ¬ is_gameStart_to a e.
Proof.
  unfold startNextRound.
  destruct (rooms st !! roomId) as [rm|]; [|by intros He%elem_of_nil].
  destruct (decide (length (gameQuestions rm) ≤ gameIndex rm)).
  { simpl. intros He (?&?). pick_emit. simplify_eq. }
  destruct (gameQuestions rm !! gameIndex rm) as [sg|];
    [|by intros He%elem_of_nil].
  destruct (generateOptions songs (title sg) (rng st)) as [[options ci] r'].
  simpl. intros He (?&?). pick_emit. simplify_eq.
Qed.

Lemma step_summary (i : input) (st : state) :
  ∃ a,
    (∀ t, t ≠ a → rooms (step songs i st).1 !! t = rooms st !! t) ∧
    room_step a (rooms st !! a) (rooms (step songs i st).1 !! a)
      (step songs i st).2 ∧
    timers_step a st (step songs i st).1 (step songs i st).2.
Proof.
  destruct i as [sid roomId nm|sid|sid k|sid|]; simpl.
  - (* joinRoom *)
    exists roomId. unfold on_joinRoom, getOrCreateRoom.
    destruct (rooms st !! roomId) as [rm|] eqn:Hr; simpl;
      (split_and!;
       [ intros t Ht; by rewrite ?lookup_insert_ne
       | rewrite lookup_insert_eq;
         match goal with
         | |- room_step _ ?o (Some ?x) _ => apply (rs_join roomId o x)
         end; by repeat split
       | quiet_out ]).
  - (* startGame *)
    unfold on_startGame.
    destruct (sockets st !! sid) as [roomId|] eqn:Hs;
      [|exists sid; split_and!; [done|constructor|quiet_out]].
    exists roomId.
    destruct (rooms st !! roomId) as [rm|] eqn:Hr;
      [|simpl; rewrite Hr; split_and!; [done|constructor|quiet_out]].
    destruct (decide (hostId rm = Some sid)) as [Hh|Hh];
      [|simpl; rewrite Hr; split_and!; [done|constructor|quiet_out]].
    destruct (shuffle songs (rng st)) as [shuffled r].
    unfold startNextRound. simpl. rewrite lookup_insert_eq. simpl.
    destruct (decide (length (take 10 shuffled) ≤ 0)) as [Hle|Hlt]; simpl.
    { split_and!.
      - intros t Ht. by rewrite lookup_insert_ne.
      - rewrite lookup_insert_eq.
        match goal with
        | |- room_step _ _ (Some ?x) _ => by apply (rs_start_end roomId rm x)
        end.
      - left. split; [done|]. left. by eexists _, _. }
    destruct (take 10 shuffled !! 0) as [sg|] eqn:Hsg.
    2:{ apply lookup_ge_None in Hsg. lia. }
    destruct (generateOptions songs (title sg) r) as [[options ci] r'].
    simpl. split_and!.
    + intros t Ht. by rewrite !lookup_insert_ne.
    + rewrite lookup_insert_eq.
      match goal with
      | |- room_step _ _ (Some ?x) _ => apply (rs_start_round roomId rm x)
      end; simpl; [done|].
      split; [done|]. by eexists.
    + left. split; [done|]. left. by eexists _, _.
  - (* answer *)
    unfold on_answer.
    destruct (sockets st !! sid) as [roomId|] eqn:Hs;
      [|exists sid; split_and!; [done|constructor|quiet_out]].
    exists roomId.
    destruct (rooms st !! roomId) as [rm|] eqn:Hr;
      [|simpl; rewrite Hr; split_and!; [done|constructor|quiet_out]].
    destruct (roundActive rm) eqn:Hact; simpl;
      [|rewrite Hr; split_and!; [done|constructor|quiet_out]].
    destruct (currentQuestion rm) as [q|] eqn:Hq;
      [|simpl; rewrite Hr; split_and!; [done|constructor|quiet_out]].
    destruct (obj_get sid (players rm)) as [p|] eqn:Hp;
      [|simpl; rewrite Hr; split_and!; [done|constructor|quiet_out]].
    destruct (truthy (winnerSocketId q)) eqn:Hw;
      [simpl; rewrite Hr; split_and!; [done|by constructor|quiet_out]|].
    destruct (k =? correctIndex q)%Z eqn:Hk;
      [|simpl; rewrite Hr; split_and!; [done|by constructor|quiet_out]].
    simpl. split_and!.
    + intros t Ht. by rewrite lookup_insert_ne.
    + rewrite lookup_insert_eq.
      match goal with
      | |- room_step _ _ (Some ?x) _ =>
          by apply (rs_win roomId rm x q sid (name p, score p + 1))
      end.
    + right. left. done.
  - (* disconnect *)
    unfold on_disconnect.
    destruct (sockets st !! sid) as [roomId|] eqn:Hs;
      [|exists sid; split_and!; [done|constructor|quiet_out]].
    exists roomId.
    destruct (rooms st !! roomId) as [rm|] eqn:Hr;
      [|simpl; rewrite Hr; split_and!; [done|constructor|quiet_out]].
    destruct (decide (length (obj_keys (obj_delete sid (players rm))) = 0));
      simpl.
    + split_and!; [|rewrite lookup_delete_eq; constructor|quiet_out].
      intros t Ht. by rewrite lookup_delete_ne.
    + split_and!; [| |quiet_out].
      * intros t Ht. by rewrite lookup_insert_ne.
      * rewrite lookup_insert_eq.
        match goal with
        | |- room_step _ _ (Some ?x) _ => by apply (rs_leave roomId rm x)
        end.
  - (* the timer *)
    unfold on_timer. destruct (timers st) as [|roomId ts] eqn:Hts.
    { exists EmptyString. split_and!; [done|constructor|quiet_out]. }
    exists roomId.
    set (s := {| rooms := rooms st; sockets := sockets st; timers := ts;
                 rng := rng st |}).
    destruct (startNextRound_room songs roomId s) as [Hframe Hstep].
    destruct (startNextRound_timers songs roomId s) as [Ht Hw].
    split_and!; [done|done|].
    right. right. rewrite Ht, Hts. split_and!; [done|done|].
    intros e He. by eapply startNextRound_no_start.
Qed.

Lemma pending_none (t : string) (queue : list string) :
  t ∉ queue → pending t queue = 0.
Proof.
  intros Ht. unfold pending. rewrite filter_none; [done|].
  intros x Hx ->. done.
Qed.

Lemma pending_cons (t a : string) (queue : list string) :
  pending t (a :: queue) =
  (if decide (a = t) then 1 else 0) + pending t queue.
Proof. unfold pending. rewrite filter_cons. by destruct (decide (a = t)). Qed.

Lemma pending_snoc (t a : string) (queue : list string) :
  pending t (queue ++ [a]) =
  pending t queue + (if decide (a = t) then 1 else 0).
Proof.
  unfold pending. rewrite filter_app, length_app, filter_cons.
  by destruct (decide (a = t)).
Qed.

Lemma room_step_other_end (a t : string) o o' (out : list emit) (n : nat) :
  room_step a o o' out → t ≠ a → foldl (tally_end t) n out = n.
Proof.
  intros Hstep Hne. destruct Hstep; simpl; by rewrite ?decide_False.
Qed.

Lemma timers_step_other (a t : string) (st st' : state) (out : list emit) :
  timers_step a st st' out → t ≠ a →
  pending t (timers st') = pending t (timers st).
Proof.
  intros [[-> _]|[[-> _]|(-> & _)]] Hne.
  - done.
  - rewrite pending_snoc, decide_False by done. lia.
  - by rewrite pending_cons, decide_False.
Qed.

Ltac room_cases H :=
  destruct H as
    [ o | rm0 sid b Hact | rm0 Hle | o rm1 Hsame | rm0 rm1 Hsame | rm0
    | rm0 rm1 q0 sid w Hact Hq0 Hw Hq1 Hact1 Hgq Hgi
    | rm0 rm1 u ops Hlt Hgi Hgq Hfresh
    | rm0 rm1 u ops Hgi Hfresh
    | rm0 rm1 Hgi Hle Hcq Hact ].

Lemma game_end_local (a : string) (tm tm' : list string)
    (o o' : option room) (out : list emit) (n : nat) :
  room_step a o o' out →
  (tm' = tm ∧
   ((∃ k out', out = Emit a (gameStart k) :: out') ∨
    (won_rooms out = [] ∧
     ∀ e, e ∈ out → (¬ is_question_to a e) ∧ (¬ is_gameEnd_to a e)))) ∨
  (tm' = tm ++ [a] ∧ won_rooms out = [a]) ∨
  (tm = a :: tm' ∧ won_rooms out = [] ∧
   ∀ e, e ∈ out → ¬ is_gameStart_to a e) →
  (∀ e, e ∈ out → ¬ is_gameStart_to a e) →
  pending a tm ≤ 1 →
  (∀ rm, o = Some rm → roundActive rm = true → pending a tm = 0) →
  (1 ≤ n →
     pending a tm = 0 ∧ (∀ rm, o = Some rm → roundActive rm = false)) →
  n ≤ 1 →
  pending a tm' ≤ 1 ∧
  (∀ rm, o' = Some rm → roundActive rm = true → pending a tm' = 0) ∧
  (1 ≤ foldl (tally_end a) n out →
     pending a tm' = 0 ∧ (∀ rm, o' = Some rm → roundActive rm = false)) ∧
  foldl (tally_end a) n out ≤ 1.
Proof.
  intros Hstep Htim Hno Hone Hopen Hended Hn. unfold won_rooms in Htim.
  destruct Htim as [[-> [(k & out' & ->)|[Hwon Hquiet]]]
                   |[[-> Hwon]|(-> & Hwon & Hnostart)]].
  - (* a game is announced *)
    destruct (Hno (Emit a (gameStart k)) ltac:(by left)). by eexists.
  - (* the queue is left alone *)
    room_cases Hstep; simpl in *; try done.
    + destruct (Hquiet (Emit a (gameEnd (players rm0))) ltac:(by left))
        as [_ []]. by eexists.
    + destruct Hsame as (_ & _ & _ & Hact).
      split_and!; [done| | |done].
      * intros ? [= <-] Hrm. rewrite Hact in Hrm.
        destruct o as [rm|]; [by eapply Hopen|done].
      * intros Hk. destruct (Hended Hk) as [Hp Hcl]. split; [done|].
        intros ? [= <-]. rewrite Hact.
        destruct o as [rm|]; [by apply Hcl|done].
    + destruct Hsame as (_ & _ & _ & Hact).
      split_and!; [done| | |done].
      * intros ? [= <-] Hrm. rewrite Hact in Hrm. by eapply Hopen.
      * intros Hk. destruct (Hended Hk) as [Hp Hcl]. split; [done|].
        intros ? [= <-]. rewrite Hact. by apply Hcl.
    + split_and!; try done. intros Hk. by destruct (Hended Hk).
    + destruct (Hquiet
                  (Emit a (questionEv u ops (gameIndex rm1)
                             (length (gameQuestions rm1))))
                  ltac:(by left)) as [[] _].
      by repeat eexists.
    + destruct (Hno (Emit a (gameStart (length (gameQuestions rm1))))
                  ltac:(by left)).
      by eexists.
    + destruct (Hno (Emit a (gameStart (length (gameQuestions rm1))))
                  ltac:(by left)).
      by eexists.
  - (* a round is won *)
    room_cases Hstep; simpl in *; try done.
    pose proof (Hopen rm0 eq_refl Hact) as Hp0.
    assert (Hk0 : n = 0).
    { destruct n as [|n]; [done|]. destruct Hended as [_ Hcl]; [lia|].
      rewrite (Hcl rm0 eq_refl) in Hact. done. }
    subst n. rewrite pending_snoc, decide_True, Hp0 by done.
    split_and!; [lia| |lia|lia].
    intros ? [= <-] Hrm. congruence.
  - (* a timer fires *)
    rewrite pending_cons, decide_True in Hone, Hopen, Hended by done.
    assert (Hp' : pending a tm' = 0) by lia.
    assert (Hk0 : n = 0).
    { destruct n as [|n]; [done|]. destruct Hended as [? _]; lia. }
    subst n.
    assert (Hcl : ∀ rm, o = Some rm → roundActive rm = false).
    { intros rm Hrm. destruct (roundActive rm) eqn:Hact; [|done].
      specialize (Hopen rm Hrm Hact). lia. }
    room_cases Hstep; simpl in *;
      rewrite ?decide_True by done; try done;
      try (split_and!; [lia|done|lia|lia]).
    + split_and!; [lia|done| |lia]. intros _. split; [done|].
      intros ? [= <-]. by apply Hcl.
    + destruct (Hnostart (Emit a (gameStart (length (gameQuestions rm1))))
                  ltac:(by left)).
      by eexists.
Qed.

Lemma game_end_step (t : string) (i : input) (st : state) (n : nat) :
  game_end_inv t st n →
  (∀ e, e ∈ (step songs i st).2 → ¬ is_gameStart_to t e) →
  game_end_inv t (step songs i st).1
    (foldl (tally_end t) n (step songs i st).2).
Proof.
  intros (Hone & Hopen & Hended & Hn) Hno.
  destruct (step_summary i st) as (a & Hframe & Hstep & Htim).
  destruct (decide (t = a)) as [->|Hne].
  - by apply (game_end_local a (timers st) (timers (step songs i st).1)
                (rooms st !! a) (rooms (step songs i st).1 !! a)
                (step songs i st).2 n).
  - unfold game_end_inv.
    rewrite (room_step_other_end a t _ _ _ n Hstep Hne).
    rewrite (timers_step_other a t _ _ _ Htim Hne), Hframe by done.
    done.
Qed.

Lemma game_end_run (t : string) (ins : list input) (st : state) (n : nat) :
  game_end_inv t st n →
  (∀ e, e ∈ (run songs ins st).2 → ¬ is_gameStart_to t e) →
  game_end_inv t (run songs ins st).1
    (foldl (tally_end t) n (run songs ins st).2).
Proof.
  revert st n. induction ins as [|i ins IH]; intros st n Hinv Hno; [done|].
  simpl in *. pose proof (game_end_step t i st n Hinv) as Hstep.
  destruct (step songs i st) as [st1 out1]. simpl in *.
  specialize (IH st1 (foldl (tally_end t) n out1)).
  destruct (run songs ins st1) as [st2 out2]. simpl in *.
  rewrite foldl_app. apply IH.
  - apply Hstep. intros e He. apply Hno, elem_of_app. by left.
  - intros e He. apply Hno, elem_of_app. by right.
Qed.

Lemma tally_end_mono (t : string) (l : list emit) (n : nat) :
  (∀ e, e ∈ l → ¬ is_gameStart_to t e) →
  n ≤ foldl (tally_end t) n l ∧
  ((∃ ps, Emit t (gameEnd ps) ∈ l) → n < foldl (tally_end t) n l).
Proof.
  revert n. induction l as [|e l IH]; intros n Hno; simpl.
  - split; [done|]. intros [ps Hin]. by apply elem_of_nil in Hin.
  - assert (Hl : ∀ e', e' ∈ l → ¬ is_gameStart_to t e').
    { intros e' He'. apply Hno. by right. }
    assert (He : n ≤ tally_end t n e ∧
                 ((∃ ps, e = Emit t (gameEnd ps)) → n < tally_end t n e)).
    { destruct e as [t' []]; simpl;
        try (split; [done|]; by intros [? [=]]).
      - destruct (decide (t' = t)) as [->|];
          [|split; [done|]; intros [? [=]]; done].
        destruct (Hno (Emit t (gameStart total)) ltac:(by left)).
        by eexists.
      - destruct (decide (t' = t)) as [->|];
          [|split; [done|]; intros [? [=]]; done].
        split; [lia|]. intros _. lia. }
    destruct (IH (tally_end t n e) Hl) as [Hle Hlt].
    split; [lia|]. intros [ps Hin].
    apply elem_of_cons in Hin as [Hin|Hin].
    + destruct He as [_ He]. specialize (He ltac:(by eexists)). lia.
    + specialize (Hlt ltac:(by eexists)). lia.
Qed.

Lemma on_startGame_accepted (st : state) (sid roomId : string) (rm : room) :
  sockets st !! sid = Some roomId →
  rooms st !! roomId = Some rm →
  hostId rm = Some sid →
  ∃ k out', (on_startGame songs sid st).2 = Emit roomId (gameStart k) :: out'.
Proof.
  intros Hs Hr Hh. unfold on_startGame. rewrite Hs, Hr.
  rewrite decide_True by done.
  destruct (shuffle songs (rng st)) as [shuffled r0].
  match goal with
  | |- context [startNextRound ?s ?a ?x] =>
      destruct (startNextRound s a x) as [st2 out]
  end.
  simpl. by eexists _, _.
Qed.

(** A timer is taken from the queue by a firing only, which advances the
    round of its room: nothing happens when the room is gone, and one
    [question] or one [gameEnd] is sent to it otherwise. *)
Lemma step_pop (i : input) (st : state) (a : string) :
  timers st = a :: timers (step songs i st).1 →
  rooms st !! a = None ∨
  ∃ e, (step songs i st).2 = [e] ∧ (is_question_to a e ∨ is_gameEnd_to a e).
Proof.
  intros Hpop.
  assert (Hl : length (timers st) = S (length (timers (step songs i st).1))).
  { rewrite Hpop at 1. reflexivity. }
  pose proof (f_equal length (step_fired songs i st)) as Hf.
  rewrite !length_app in Hf.
  destruct i as [sid roomId nm|sid|sid k|sid|];
    try (cbn [fired_by length] in Hf; lia).
  clear Hl Hf. simpl in *. unfold on_timer in *.
  destruct (timers st) as [|b ts] eqn:Hts; [done|].
  match type of Hpop with
  | context [startNextRound songs b ?s] =>
      destruct (startNextRound_timers songs b s) as [Ht _];
      rewrite Ht in Hpop; set (s0 := s) in *
  end.
  simpl in Hpop. injection Hpop as ->.
  unfold startNextRound. simpl.
  destruct (rooms st !! a) as [rm|]; [right|by left].
  destruct (decide (length (gameQuestions rm) ≤ gameIndex rm)).
  { eexists. split; [done|]. right. by eexists. }
  destruct (gameQuestions rm !! gameIndex rm) as [sg|] eqn:Hsg.
  2:{ apply lookup_ge_None in Hsg. lia. }
  destruct (generateOptions songs (title sg) (rng st)) as [[options ci] r'].
  eexists. split; [done|]. left. by repeat eexists.
Qed.

Lemma game_done_local (a : string) (tm tm' : list string)
    (o o' : option room) (out : list emit) (n : nat) :
  room_step a o o' out →
  (tm' = tm ∧
   ((∃ k out', out = Emit a (gameStart k) :: out') ∨
    (won_rooms out = [] ∧
     ∀ e, e ∈ out → (¬ is_question_to a e) ∧ (¬ is_gameEnd_to a e)))) ∨
  (tm' = tm ++ [a] ∧ won_rooms out = [a]) ∨
  (tm = a :: tm' ∧ won_rooms out = [] ∧
   ∀ e, e ∈ out → ¬ is_gameStart_to a e) →
  (tm = a :: tm' →
   o = None ∨ ∃ e, out = [e] ∧ (is_question_to a e ∨ is_gameEnd_to a e)) →
  (∀ e, e ∈ out → ¬ is_gameStart_to a e) →
  foldl (tally_end a) n out ≤ 1 →
  (∀ rm, o = Some rm → 1 ≤ gameIndex rm →
         length (gameQuestions rm) ≤ gameIndex rm → roundActive rm = false →
         pending a tm = 0 → n = 1) →
  ∀ rm, o' = Some rm → 1 ≤ gameIndex rm →
        length (gameQuestions rm) ≤ gameIndex rm → roundActive rm = false →
        pending a tm' = 0 → foldl (tally_end a) n out = 1.
Proof.
  intros Hstep Htim Hpop Hno Hle1 Hpre. unfold won_rooms in Htim.
  destruct Htim as [[-> [(k & out' & ->)|[Hwon Hquiet]]]
                   |[[-> Hwon]|(-> & Hwon & _)]].
  - (* a game is announced *)
    destruct (Hno (Emit a (gameStart k)) ltac:(by left)). by eexists.
  - (* the queue is left alone *)
    clear Hpop.
    room_cases Hstep; simpl in *; try done.
    + destruct (Hquiet (Emit a (gameEnd (players rm0))) ltac:(by left))
        as [_ []]. by eexists.
    + destruct Hsame as (Hgq & Hgi & _ & Hact).
      intros ? [= <-]. rewrite Hgq, Hgi, Hact.
      destruct o as [rm|]; [by apply Hpre|]. simpl. lia.
    + destruct Hsame as (Hgq & Hgi & _ & Hact).
      intros ? [= <-]. rewrite Hgq, Hgi, Hact. by apply Hpre.
    + destruct (Hquiet
                  (Emit a (questionEv u ops (gameIndex rm1)
                             (length (gameQuestions rm1))))
                  ltac:(by left)) as [[] _].
      by repeat eexists.
    + destruct (Hno (Emit a (gameStart (length (gameQuestions rm1))))
                  ltac:(by left)).
      by eexists.
    + destruct (Hno (Emit a (gameStart (length (gameQuestions rm1))))
                  ltac:(by left)).
      by eexists.
  - (* a round is won: its timer is pending *)
    intros rm _ _ _ _. rewrite pending_snoc, decide_True by done. lia.
  - (* a timer fires *)
    specialize (Hpop eq_refl).
    room_cases Hstep; simpl in *; rewrite ?decide_True in * by done;
      try done.
    + destruct Hpop as [->|(e & [=] & _)]. done.
    + destruct Hpop as [[=]|(e & [= <-] & [(?&?&?&?&[=])|(?&[=])])].
    + intros. lia.
    + destruct Hpop as [->|(e & [= <-] & [(?&?&?&?&[=])|(?&[=])])].
      destruct Hsame as (_ & Hgi & _). simpl in Hgi.
      intros ? [= <-]. lia.
    + destruct Hpop as [[=]|(e & [= <-] & [(?&?&?&?&[=])|(?&[=])])].
    + destruct Hfresh as [Hact _]. intros ? [= <-]. congruence.
    + destruct (Hno (Emit a (gameStart (length (gameQuestions rm1))))
                  ltac:(by left)).
      by eexists.
Qed.

Lemma game_done_step (t : string) (i : input) (st : state) (n : nat) :
  game_end_inv t st n →
  game_done_inv t st n →
  (∀ e, e ∈ (step songs i st).2 → ¬ is_gameStart_to t e) →
  game_done_inv t (step songs i st).1
    (foldl (tally_end t) n (step songs i st).2).
Proof.
  intros Hinv Hdone Hno.
  pose proof (game_end_step t i st n Hinv Hno) as (_ & _ & _ & Hle1).
  destruct (step_summary i st) as (a & Hframe & Hstep & Htim).
  destruct (decide (t = a)) as [->|Hne].
  - intros (rm & Hrm & Hgi & Hle & Hact & Hp).
    apply (game_done_local a (timers st) (timers (step songs i st).1)
             (rooms st !! a) (rooms (step songs i st).1 !! a)
             (step songs i st).2 n Hstep Htim (step_pop i st a) Hno Hle1)
      with rm; try done.
    intros rm0 ? ? ? ? ?. apply Hdone. by exists rm0.
  - unfold game_done_inv, game_done.
    rewrite (room_step_other_end a t _ _ _ n Hstep Hne).
    rewrite (timers_step_other a t _ _ _ Htim Hne), Hframe by done.
    done.
Qed.

Lemma game_done_run (t : string) (ins : list input) (st : state) (n : nat) :
  game_end_inv t st n →
  game_done_inv t st n →
  (∀ e, e ∈ (run songs ins st).2 → ¬ is_gameStart_to t e) →
  game_done_inv t (run songs ins st).1
    (foldl (tally_end t) n (run songs ins st).2).
Proof.
  revert st n. induction ins as [|i ins IH]; intros st n Hinv Hdone Hno;
    [done|].
  simpl in *. pose proof (game_end_step t i st n Hinv) as Hstep.
  pose proof (game_done_step t i st n Hinv Hdone) as Hstep'.
  destruct (step songs i st) as [st1 out1]. simpl in *.
  specialize (IH st1 (foldl (tally_end t) n out1)).
  destruct (run songs ins st1) as [st2 out2]. simpl in *.
  assert (Hno1 : ∀ e, e ∈ out1 → ¬ is_gameStart_to t e).
  { intros e He. apply Hno, elem_of_app. by left. }
  rewrite foldl_app. apply IH; [by apply Hstep|by apply Hstep'|].
  intros e He. apply Hno, elem_of_app. by right.
Qed.

(** With no song in the bank, the game ends as it starts. *)
Lemma on_startGame_empty (st : state) (sid roomId : string) (rm : room) :
  songs = [] →
  sockets st !! sid = Some roomId →
  rooms st !! roomId = Some rm →
  hostId rm = Some sid →
  ∃ ps, Emit roomId (gameEnd ps) ∈ (on_startGame songs sid st).2.
Proof.
  intros Hsongs Hs Hr Hh. unfold on_startGame. rewrite Hs, Hr.
  rewrite decide_True by done. rewrite Hsongs. simpl.
  unfold startNextRound. simpl. rewrite lookup_insert_eq. simpl.
  eexists. right. by left.
Qed.

(** The game a host starts while no timer is pending for its room. *)
Lemma game_end_start (r : list nat) (ins : list input) (sid roomId : string)
    (rm : room) :
  let s1 := (run songs ins (boot r)).1 in
  sockets s1 !! sid = Some roomId →
  rooms s1 !! roomId = Some rm →
  hostId rm = Some sid →
  roomId ∉ timers s1 →
  ∃ k out',
    (on_startGame songs sid s1).2 = Emit roomId (gameStart k) :: out' ∧
    (∀ e, e ∈ out' → ¬ is_gameStart_to roomId e) ∧
    game_end_inv roomId (on_startGame songs sid s1).1
      (foldl (tally_end roomId) 0 out') ∧
    game_done_inv roomId (on_startGame songs sid s1).1
      (foldl (tally_end roomId) 0 out').
Proof.
  intros s1 Hs Hr Hh Hpend.
  destruct (on_startGame_accepted s1 sid roomId rm Hs Hr Hh)
    as (k & out' & Hout).
  destruct (step_summary (StartGame sid) s1) as (a & Hframe & Hstep & Htim).
  pose proof (step_wf songs (StartGame sid) s1 (reachable_wf songs r ins))
    as [Hwf _].
  destruct (reachable_inv songs r ins) as [Hinv _]. fold s1 in Hinv.
  simpl in Hframe, Hstep, Htim, Hwf.
  exists k, out'. split; [done|].
  unfold timers_step, won_rooms in Htim. rewrite Hout in Hstep, Htim.
  apply pending_none in Hpend. unfold game_end_inv.
  remember (rooms s1 !! a) as o eqn:Ho.
  remember (rooms (on_startGame songs sid s1).1 !! a) as o' eqn:Ho'.
  remember (Emit roomId (gameStart k) :: out') as out eqn:Heq.
  destruct Hstep as
    [ ? | ? ? ? ? | ? ? | ? ? ? | ? ? ? | ?
    | ? ? ? ? ? ? ? ? ? ? ? ?
    | ? ? ? ? ? ? ? ?
    | rm0 rm1 u ops Hgi Hfresh
    | rm0 rm1 Hgi Hle Hcq Hact ]; try discriminate Heq.
  - (* the first round is started *)
    injection Heq as Ha Hk Ho1. subst a k out'.
    destruct Htim as [[-> _]|[[_ Hwon]|(_ & _ & Hns)]].
    + simpl. split_and!; [|lia|done|lia|lia|].
      * intros e He (?&?). pick_emit. simplify_eq.
      * intros (rm' & Hrm' & _ & _ & Hcl & _).
        rewrite <-Ho' in Hrm'. injection Hrm' as <-.
        destruct Hfresh as [Hact _]. congruence.
    + simpl in Hwon. done.
    + destruct (Hns (Emit roomId (gameStart (length (gameQuestions rm1))))
                  ltac:(by left)).
      by eexists.
  - (* the bank is empty *)
    injection Heq as Ha Hk Ho1. subst a k out'.
    destruct Htim as [[-> _]|[[_ Hwon]|(_ & _ & Hns)]].
    + simpl. rewrite decide_True by done. split_and!; [|lia|done| |lia|done].
      * intros e He (?&?). pick_emit. simplify_eq.
      * intros _. split; [done|].
        intros rm' Hrm'. rewrite <-Ho' in Hrm'. injection Hrm' as <-.
        rewrite Hr in Ho. injection Ho as ->.
        destruct (roundActive rm1) eqn:Hb; [exfalso|done].
        assert (Hra : roundActive rm = true) by congruence.
        destruct (Hinv roomId rm Hr) as (Hround & _).
        destruct (Hround Hra) as (q & Hq & _).
        destruct (Hwf roomId rm1 (eq_sym Ho')) as (_ & _ & _ & _ & _ & _ & Hqok).
        destruct (Hqok q) as (sg & _ & Hsg & _); [congruence|].
        apply lookup_lt_Some in Hsg. lia.
    + simpl in Hwon. done.
    + destruct (Hns (Emit roomId (gameStart (length (gameQuestions rm1))))
                  ltac:(by left)).
      by eexists.
Qed.

(** C5 (amended).  Once the [gameIndex] of a room has reached the
    length of its [gameQuestions], every round-advance of the room
    (a call of [startNextRound], from a timer or not) emits one
    [gameEnd {players}] and nothing else, and changes no state; no
    [question] event is sent to the room by any run that sends it no new
    [gameStart]; the room stays in the registry: a connection can join it,
    and a [startGame] by its host is accepted and announces a game of
    [min 10 (length songs)] questions.  A game that its host starts, in a
    state reached from start-up, while no round-advance timer is pending
    for the room sees exactly one [gameEnd]: at most one is broadcast,
    whatever happens until the next [gameStart] of the room, and one has
    been broadcast as soon as the game is over and its last round-advance
    has run, that is when every question of the room's list was drawn, at
    least one, no round is open and no timer is pending for the room;
    with no song in the bank, one is broadcast with the [gameStart].
    (A game started while a timer is pending can see two.) *)
Theorem game_over :
  (∀ (st : state) (roomId : string) (rm : room),
     rooms st !! roomId = Some rm →
     length (gameQuestions rm) ≤ gameIndex rm →
     startNextRound songs roomId st =
       (st, [Emit roomId (gameEnd (players rm))]) ∧
     (∀ ts, timers st = roomId :: ts →
        (on_timer songs st).2 = [Emit roomId (gameEnd (players rm))] ∧
        rooms (on_timer songs st).1 = rooms st) ∧
     (∀ ins,
        (∀ e, e ∈ (run songs ins st).2 → ¬ is_gameStart_to roomId e) →
        ∀ e, e ∈ (run songs ins st).2 → ¬ is_question_to roomId e) ∧
     (∀ sid nm, ∃ rm',
        rooms (on_joinRoom sid roomId nm st).1 !! roomId = Some rm' ∧
        obj_get sid (players rm') = Some {| name := nm; score := 0 |}) ∧
     (∀ sid, sockets st !! sid = Some roomId → hostId rm = Some sid →
        ∃ out, (on_startGame songs sid st).2 =
                 Emit roomId (gameStart (min 10 (length songs))) :: out)) ∧
  (∀ (r : list nat) (ins1 ins2 : list input) (sid roomId : string)
     (rm : room),
     let s1 := (run songs ins1 (boot r)).1 in
     let out := (run songs (StartGame sid :: ins2) s1).2 in
     sockets s1 !! sid = Some roomId →
     rooms s1 !! roomId = Some rm →
     hostId rm = Some sid →
     roomId ∉ timers s1 →
     (∀ e, e ∈ (run songs ins2 (on_startGame songs sid s1).1).2 →
           ¬ is_gameStart_to roomId e) →
     game_ends roomId out ≤ 1 ∧
     ((∃ ps, Emit roomId (gameEnd ps) ∈ out) → game_ends roomId out = 1) ∧
     (game_done roomId (run songs (StartGame sid :: ins2) s1).1 →
      game_ends roomId out = 1) ∧
     (songs = [] → game_ends roomId out = 1)).
Proof.
  split; [apply game_over_step|].
  intros r ins1 ins2 sid roomId rm s1 out Hs Hr Hh Hpend Hno2.
  destruct (game_end_start r ins1 sid roomId rm Hs Hr Hh Hpend)
    as (k & out' & Hout & Hno1 & Hinv & Hdone).
  fold s1 in Hout, Hinv, Hdone.
  pose proof (game_end_run roomId ins2 _ _ Hinv Hno2) as (_ & _ & _ & Hle).
  pose proof (game_done_run roomId ins2 _ _ Hinv Hdone Hno2) as Hfin.
  assert (Hall : ∀ e, e ∈ out' ++ (run songs ins2
                                    (on_startGame songs sid s1).1).2 →
                      ¬ is_gameStart_to roomId e).
  { intros e [He|He]%elem_of_app; [by apply Hno1|by apply Hno2]. }
  assert (Heq : out = Emit roomId (gameStart k) ::
                      out' ++ (run songs ins2
                                 (on_startGame songs sid s1).1).2).
  { subst out. simpl.
    destruct (on_startGame songs sid s1) as [st1 out1]. simpl in *.
    destruct (run songs ins2 st1) as [st2 out2]. simpl. by rewrite Hout. }
  assert (Hcount : game_ends roomId out =
                   foldl (tally_end roomId) 0
                     (out' ++ (run songs ins2
                                 (on_startGame songs sid s1).1).2)).
  { rewrite Heq. unfold game_ends. simpl. by rewrite decide_True. }
  assert (Hst : (run songs (StartGame sid :: ins2) s1).1 =
                (run songs ins2 (on_startGame songs sid s1).1).1).
  { simpl. destruct (on_startGame songs sid s1) as [st1 out1]. simpl.
    by destruct (run songs ins2 st1). }
  assert (Hseen : (∃ ps, Emit roomId (gameEnd ps) ∈ out) →
                  foldl (tally_end roomId)
                    (foldl (tally_end roomId) 0 out')
                    (run songs ins2 (on_startGame songs sid s1).1).2 = 1).
  { intros [ps Hin]. rewrite Heq in Hin.
    apply elem_of_cons in Hin as [Hin|Hin]; [done|].
    destruct (tally_end_mono roomId _ 0 Hall) as [_ Hpos].
    rewrite foldl_app in Hpos. specialize (Hpos ltac:(by eexists)). lia. }
  rewrite Hcount, Hst, foldl_app. split_and!; [done|done|done|].
  intros Hsongs. apply Hseen.
  destruct (on_startGame_empty s1 sid roomId rm Hsongs Hs Hr Hh)
    as [ps Hin].
  exists ps. rewrite Heq, app_comm_cons, <-Hout.
  apply elem_of_app. by left.
Qed.
End game_end_facts.

(** The single round of a one-song game is won and its timer fires: the
    game has ended, and saw one [gameEnd]. *)
Lemma game_over_witness :
  startNextRound bank1 "R" won1
    = (won1, [Emit "R" (gameEnd [("s1", {| name := "ann"; score := 1 |})])]) ∧
  game_ends "R"
    (run bank1 [StartGame "s1"; Answer "s1" 0; TimerFire]
       (run bank1 [JoinRoom "s1" "R" "ann"] (boot [])).1).2 = 1.
Proof.
  split.
  - eapply proj1.
    eapply (proj1 (game_over bank1) won1 "R"
              {| id := "R"; hostId := Some "s1";
                 players := [("s1", {| name := "ann"; score := 1 |})];
                 gameQuestions := bank1; gameIndex := 1;
                 currentQuestion :=
                   Some {| q_title := "A"; q_audioUrl := "/a";
                           correctIndex := 0; winnerSocketId := Some "s1" |};
                 roundActive := false |}).
    + vm_compute. reflexivity.
    + vm_compute. lia.
  - refine (proj1 (proj2 (proj2
      (proj2 (game_over bank1) [] [JoinRoom "s1" "R" "ann"]
         [Answer "s1" 0; TimerFire] "s1" "R"
         {| id := "R"; hostId := Some "s1";
            players := [("s1", {| name := "ann"; score := 0 |})];
            gameQuestions := []; gameIndex := 0;
            currentQuestion := None; roundActive := false |} _ _ _ _ _))) _).
    + vm_compute. reflexivity.
    + vm_compute. reflexivity.
    + reflexivity.
    + vm_compute. inversion 1.
    + intros e He [n ->]. vm_compute in He.
      repeat (apply elem_of_cons in He as [He|He]; [discriminate He|]).
      inversion He.
    + exists {| id := "R"; hostId := Some "s1";
                players := [("s1", {| name := "ann"; score := 1 |})];
                gameQuestions := bank1; gameIndex := 1;
                currentQuestion :=
                  Some {| q_title := "A"; q_audioUrl := "/a";
                          correctIndex := 0; winnerSocketId := Some "s1" |};
                roundActive := false |}.
      vm_compute. repeat split; lia.
Defined.

(** ** The further properties at concrete inputs *)

(** Stand-ins for [path.extname], [toLowerCase] and [path.basename] on
    lower-case names with a three-letter extension. *)
Definition ext3 (nm : string) : string :=
  String.substring (String.length nm - 4) 4 nm.

Definition lower_id (s : string) : string := s.

Definition strip_ext (nm ext : string) : string :=
  String.substring 0 (String.length nm - String.length ext) nm.

Definition two_folders : list dirent :=
  [Dir "x" [File "B.mp3"; File "notes.txt"]; Dir "y" [File "B.mp3"]].

Definition joined1 : list input := [JoinRoom "s1" "R" "ann"].

Definition started1 : list input :=
  [JoinRoom "s1" "R" "ann"; StartGame "s1"].

Definition started2 : list input :=
  [JoinRoom "s1" "R" "ann"; JoinRoom "s2" "R" "bob"; StartGame "s1"].

(** The room of [started1] and [started2] over [bank1], its question and
    its first player. *)
Definition question1 : question :=
  {| q_title := "A"; q_audioUrl := "/a"; correctIndex := 0;
     winnerSocketId := None |}.

Definition ann0 : player := {| name := "ann"; score := 0 |}.

Definition room_started1 : room :=
  {| id := "R"; hostId := Some "s1"; players := [("s1", ann0)];
     gameQuestions := bank1; gameIndex := 1;
     currentQuestion := Some question1; roundActive := true |}.

Definition room_two : room :=
  {| id := "R"; hostId := Some "s1";
     players := [("s1", ann0); ("s2", {| name := "bob"; score := 0 |})];
     gameQuestions := []; gameIndex := 0;
     currentQuestion := None; roundActive := false |}.

Lemma shuffle_reaches_every_order_witness :
  ∃ r, length r = 2 ∧ (shuffle [1; 2; 3] r).1 = [3; 1; 2].
Proof.
  apply (shuffle_reaches_every_order [1; 2; 3] [3; 1; 2]).
  apply (Permutation_cons_append [1; 2] 3).
Defined.

Lemma getOrCreateRoom_idempotent_witness :
  (getOrCreateRoom "R" ∅).1 = newRoom "R".
Proof.
  apply (getOrCreateRoom_idempotent "R" ∅). vm_compute. reflexivity.
Defined.

Lemma scanAudioDir_files_witness :
  ∃ rest, "/audio/x/B.mp3" = "/audio" +:+ "/" +:+ rest.
Proof.
  apply (proj2 (scanAudioDir_files ext3 lower_id strip_ext two_folders
                  "/audio" [])
           {| title := "B"; audioUrl := "/audio/x/B.mp3" |}).
  vm_compute. by left.
Defined.


Lemma registry_rooms_have_host_witness :
  ∃ h p, hostId room_started1 = Some h ∧
    obj_get h (players room_started1) = Some p.
Proof.
  eapply proj2, proj2, proj2.
  apply (registry_rooms_have_host bank1 [] started1 "R" room_started1).
  vm_compute. reflexivity.
Defined.

Lemma joined_connection_is_player_witness :
  ∃ rm p, rooms (run bank1 joined1 (boot [])).1 !! "R" = Some rm ∧
    obj_get "s1" (players rm) = Some p.
Proof.
  apply (joined_connection_is_player bank1 [] joined1 "s1" "R").
  vm_compute. reflexivity.
Defined.

Lemma game_cursor_in_bounds_witness :
  gameIndex room_started1 ≤ length (gameQuestions room_started1).
Proof.
  eapply proj1.
  apply (game_cursor_in_bounds bank1 [] started1 "R" room_started1).
  vm_compute. reflexivity.
Defined.

Lemma current_question_is_last_drawn_witness :
  ∃ sg, 0 < gameIndex room_started1 ∧
    gameQuestions room_started1 !! (gameIndex room_started1 - 1) = Some sg ∧
    sg ∈ bank1 ∧ q_title question1 = title sg ∧
    q_audioUrl question1 = audioUrl sg ∧
    (0 ≤ correctIndex question1 < 4)%Z.
Proof.
  apply (current_question_is_last_drawn bank1 [] started1 "R"
           room_started1 question1).
  - vm_compute. reflexivity.
  - reflexivity.
Defined.

Lemma startGame_by_host_witness :
  timers (on_startGame bank1 "s1" (run bank1 joined1 (boot [])).1).1
    = timers (run bank1 joined1 (boot [])).1.
Proof.
  eapply proj1.
  eapply (startGame_by_host bank1 (run bank1 joined1 (boot [])).1 "s1" "R");
    vm_compute; reflexivity.
Defined.

Lemma answer_outcome_witness :
  (on_answer "s1" 1 (run bank1 started1 (boot [])).1).2
    = [Emit "s1" (answerResult false)].
Proof.
  eapply proj2.
  eapply (proj1 (answer_outcome (run bank1 started1 (boot [])).1 "s1" "R" 1
                  room_started1 question1 ann0 _ _ _ _ _ _)).
  discriminate.
  Unshelve. all: vm_compute; reflexivity.
Defined.

Lemma answers_after_win_dropped_witness :
  on_answer "s2" 0
    (run bank1 [JoinRoom "s3" "R" "cat"; Disconnect "s3"]
       (on_answer "s1" 0 (run bank1 started2 (boot [])).1).1).1
    = ((run bank1 [JoinRoom "s3" "R" "cat"; Disconnect "s3"]
          (on_answer "s1" 0 (run bank1 started2 (boot [])).1).1).1, []).
Proof.
  eapply (answers_after_win_dropped bank1 (run bank1 started2 (boot [])).1
            "s1" "s2" "R" 0 0 _ _ _
            [JoinRoom "s3" "R" "cat"; Disconnect "s3"]).
  - vm_compute. right. left.
  - intros e He (u & o & i & n & ->). vm_compute in He.
    repeat (apply elem_of_cons in He as [He|He]; [discriminate He|]).
    by apply elem_of_nil in He.
  - vm_compute. reflexivity.
Defined.

Lemma question_event_bounds_witness :
  1 ≤ 1 ∧ 1 ≤ 1 ∧ 1 ≤ 10 ∧ 1 ≤ length bank1 ∧ length ["A"] ≤ 4 ∧
  ∃ sg, sg ∈ bank1 ∧ "/a" = audioUrl sg ∧ title sg ∈ ["A"].
Proof.
  apply (question_event_bounds bank1 [] started1 "R" "/a" ["A"] 1 1).
  vm_compute. right. right. left.
Defined.

Lemma answer_key_witness :
  ∃ sg b rest, sg ∈ bank1 ∧ "/a" = audioUrl sg ∧
    (on_answer "s1" 0
       (step bank1 (StartGame "s1") (run bank1 joined1 (boot [])).1).1).2
      = Emit "s1" (answerResult b) :: rest ∧
    (b = true ↔ (0 ≤ 0)%Z ∧ ["A"] !! Z.to_nat 0 = Some (title sg)).
Proof.
  apply (answer_key bank1 [] joined1 (StartGame "s1") "R" "/a" "s1" ["A"]
           1 1 0).
  - vm_compute. right. left.
  - vm_compute. reflexivity.
Defined.

Lemma startNextRound_advances_witness :
  timers (startNextRound bank2 "R"
            (run bank2 [JoinRoom "s1" "R" "ann"; StartGame "s1";
                        Answer "s1" 1] (boot [])).1).1
    = timers (run bank2 [JoinRoom "s1" "R" "ann"; StartGame "s1";
                         Answer "s1" 1] (boot [])).1.
Proof.
  eapply proj1, proj2.
  eapply (startNextRound_advances bank2
            (run bank2 [JoinRoom "s1" "R" "ann"; StartGame "s1";
                        Answer "s1" 1] (boot [])).1 "R");
    vm_compute; reflexivity.
Defined.

Lemma late_joiner_can_win_witness :
  ∃ ps,
    (on_answer "s2" 0
       (on_joinRoom "s2" "R" "bob" (run bank1 started1 (boot [])).1).1).2
      = [Emit "s2" (answerResult true);
         Emit "R" (roundResult 0 ("s2", "bob", 1) ps)] ∧
    obj_get "s2" ps = Some {| name := "bob"; score := 1 |}.
Proof.
  apply (late_joiner_can_win (run bank1 started1 (boot [])).1 "s2" "R" "bob"
           room_started1 question1);
    vm_compute; reflexivity.
Defined.

Lemma host_goes_to_first_remaining_witness :
  ∃ rm', rooms (on_disconnect "s1" two_joined).1 !! "R" = Some rm' ∧
    hostId rm' = Some "s2" ∧ obj_keys (players rm') = ["s2"] ∧
    (on_disconnect "s1" two_joined).2 =
      [Emit "R" (roomState "R" (Some "s2") (players rm'))].
Proof.
  apply (host_goes_to_first_remaining two_joined "s1" "R" "s2" room_two []);
    vm_compute; reflexivity.
Defined.

Lemma last_leave_then_join_resets_witness :
  rooms (on_disconnect "s1" (run bank1 started1 (boot [])).1).1 !! "R" = None.
Proof.
  eapply proj1.
  eapply (last_leave_then_join_resets (run bank1 started1 (boot [])).1
            "s1" "s2" "R" "bob" room_started1);
    vm_compute; reflexivity.
Defined.

Lemma stale_timer_on_rejoined_room_witness :
  (on_timer bank1 (on_joinRoom "s2" "R" "bob" emptied).1).2
    = [Emit "R" (gameEnd [("s2", {| name := "bob"; score := 0 |})])].
Proof.
  eapply proj1.
  eapply (stale_timer_on_rejoined_room bank1 emptied "s2" "R" "bob" []);
    vm_compute; reflexivity.
Defined.
